(** * serilogger: the batched sink (src/batchedSink.ts)

    A shallow embedding of the [BatchedSink] class: its fields become a
    record, its methods become functions on that record, and the parts of
    the JavaScript runtime the class talks to (timers, the wall clock, the
    promise returned by the inner sink, the [Storage] object) become
    further fields of the same record, so that every method is a pure state
    transformer.  *)

From Stdlib Require Import ZArith String Ascii Bool Lia QArith DecimalString List.
From Stdlib Require DecimalPos DecimalZ.
Import ListNotations.

Local Close Scope Q_scope.
Local Open Scope Z_scope.
Local Open Scope list_scope.

(** ** JavaScript values the class relies on *)

(** [options.period] is a JavaScript number: a rational, or NaN. *)
Inductive number : Type :=
| NaN
| Num (q : Q).

Definition isNaN (n : number) : bool :=
  match n with NaN => true | Num _ => false end.

(** [n > 0] on numbers; any comparison with NaN is false. *)
Definition gt0 (n : number) : bool :=
  match n with NaN => false | Num q => negb (Qle_bool q 0) end.

(** [Array.prototype.slice(start, end)] with integer arguments: negative
    indices count from the end, both are clamped to the array. *)
Definition sliceIndex (len i : Z) : Z :=
  if i <? 0 then Z.max (len + i) 0 else Z.min i len.

Definition slice {A : Type} (l : list A) (first last : Z) : list A :=
  let len := Z.of_nat (length l) in
  let k := sliceIndex len first in
  let final := sliceIndex len last in
  firstn (Z.to_nat (Z.max (final - k) 0)) (skipn (Z.to_nat k) l).

(** The text a template literal gives for an integer number. *)
Definition numberToString (t : Z) : string :=
  NilZero.string_of_int (Z.to_int t).

(** ** The durable store

    A [Storage] object maps string keys to string values and is enumerated
    by [for ... in] in a fixed order: an association list, first binding of
    a key wins.  [setItem] overwrites in place or appends. *)
Definition Storage : Type := list (string * string).

Definition storageKeys (st : Storage) : list string := map fst st.

Fixpoint getItem (st : Storage) (key : string) : option string :=
  match st with
  | [] => None
  | (k, v) :: rest => if String.eqb k key then Some v else getItem rest key
  end.

Fixpoint setItem (st : Storage) (key value : string) : Storage :=
  match st with
  | [] => [(key, value)]
  | (k, v) :: rest =>
      if String.eqb k key then (k, value) :: rest
      else (k, v) :: setItem rest key value
  end.

Definition removeItem (st : Storage) (key : string) : Storage :=
  filter (fun kv => negb (String.eqb (fst kv) key)) st.

(** [key.indexOf(p) === 0]: the key starts with [p]. *)
Definition startsWith (p key : string) : bool := String.prefix p key.

(** ** Promises *)

(** A promise is either one the inner sink created (named by a number) or
    the already fulfilled [Promise.resolve()]. *)
Inductive promise : Type :=
| SinkPromise (id : nat)
| PromiseResolve.

(** What a call returned, as far as [instanceof Promise] can tell. *)
Inductive value : Type :=
| APromise (p : promise)
| NotAPromise.

Inductive outcome : Type := Fulfilled | Rejected.

(** How a promise settles, given how the sink's own promises settle. *)
Definition settles (sinkOutcome : nat -> outcome) (p : promise) : outcome :=
  match p with
  | SinkPromise id => sinkOutcome id
  | PromiseResolve => Fulfilled
  end.

Definition durableStorageKey : string := "serilogger-batched-sink-durable-cache".

Section BatchedSink.

(** A log event is opaque to the sink. *)
Context {LogEvent : Type}.

(** [JSON.stringify] on an array of events, and [JSON.parse] followed by
    the [map] that rebuilds each event's message template; parsing throws
    on text that is not such an array. *)
Variable JSON_stringify : list LogEvent -> string.
Variable JSON_parse : string -> option (list LogEvent).

(** [new Date().getTime()]: the [n]-th time the clock is read. *)
Variable getTime : nat -> Z.

(** Modelled from the spec: the interface [Sink] of src/sink.ts, which is
    not among the sources; it is the spec's downstream sink, with an
    asynchronous accept operation that may fail and a finish-pending
    operation.  [emit(events)] returns any value, of which only being a
    promise matters to the batched sink; [flush()] returns the sink's own
    promise, or some other value where a sink breaks its interface.
    Neither call throws. *)
Record Sink : Type := {
  sinkEmit : list LogEvent -> value;
  sinkFlush : value
}.

(** The options as the caller passes them: every field may be left out. *)
Record BatchedSinkOptions : Type := {
  opt_maxSize : option Z;
  opt_period : option number;
  opt_durableStore : option Storage
}.

Definition defaultBatchedSinkOptions : BatchedSinkOptions :=
  {| opt_maxSize := Some 100;
     opt_period := Some (Num (5 # 1));
     opt_durableStore := None |}.

Definition orElse {A : Type} (o d : option A) : option A :=
  match o with Some a => Some a | None => d end.

(** [{...defaultBatchedSinkOptions, ...(options || {})}] *)
Definition spread (d : BatchedSinkOptions) (o : option BatchedSinkOptions)
  : BatchedSinkOptions :=
  match o with
  | None => d
  | Some o =>
      {| opt_maxSize := orElse (opt_maxSize o) (opt_maxSize d);
         opt_period := orElse (opt_period o) (opt_period d);
         opt_durableStore := orElse (opt_durableStore o) (opt_durableStore d) |}
  end.

(** A batch handed to [emitCore] whose promise chain
    [.then(...).catch(...)] has not yet run. *)
Record Dispatch : Type := {
  processEvents : list LogEvent;
  previousBatchKey : string;
  emitPromiseIsPromise : bool
}.

(** The object and its surroundings.  [maxSize], [period] and
    [durableStore] are [this.options.*] after the defaults were merged in;
    [maxSize] is an integer of any sign, as nothing in the class keeps it
    positive; [durableStore] holds the current contents of the [Storage]
    object, whose operations do not throw.  The fields from [timers] on
    are not fields of the class: [timers] are the armed timeouts,
    [nextTimer] the next handle [setTimeout] returns, [clockReads] the
    number of readings of the clock so far, [inFlight] the dispatches
    awaiting settlement, [received] the batches the inner sink was called
    with, in order, and [cycles] the number of calls of [cycleBatch]. *)
Record BatchedSink : Type := mkBatchedSink {
  maxSize : Z;
  period : number;
  durableStore : option Storage;
  innerSink : option Sink;
  batchedEvents : list LogEvent;
  batchTimeout : option nat;
  batchKey : string;
  shouldCycleContinue : bool;
  timers : list nat;
  nextTimer : nat;
  clockReads : nat;
  inFlight : list Dispatch;
  received : list (list LogEvent);
  cycles : nat
}.

Definition set_durableStore (x : option Storage) (s : BatchedSink) :=
  mkBatchedSink (maxSize s) (period s) x (innerSink s) (batchedEvents s)
    (batchTimeout s) (batchKey s) (shouldCycleContinue s) (timers s)
    (nextTimer s) (clockReads s) (inFlight s) (received s) (cycles s).

Definition set_batchedEvents (x : list LogEvent) (s : BatchedSink) :=
  mkBatchedSink (maxSize s) (period s) (durableStore s) (innerSink s) x
    (batchTimeout s) (batchKey s) (shouldCycleContinue s) (timers s)
    (nextTimer s) (clockReads s) (inFlight s) (received s) (cycles s).

Definition set_batchTimeout (x : option nat) (s : BatchedSink) :=
  mkBatchedSink (maxSize s) (period s) (durableStore s) (innerSink s)
    (batchedEvents s) x (batchKey s) (shouldCycleContinue s) (timers s)
    (nextTimer s) (clockReads s) (inFlight s) (received s) (cycles s).

Definition set_batchKey (x : string) (s : BatchedSink) :=
  mkBatchedSink (maxSize s) (period s) (durableStore s) (innerSink s)
    (batchedEvents s) (batchTimeout s) x (shouldCycleContinue s) (timers s)
    (nextTimer s) (clockReads s) (inFlight s) (received s) (cycles s).

Definition set_shouldCycleContinue (x : bool) (s : BatchedSink) :=
  mkBatchedSink (maxSize s) (period s) (durableStore s) (innerSink s)
    (batchedEvents s) (batchTimeout s) (batchKey s) x (timers s)
    (nextTimer s) (clockReads s) (inFlight s) (received s) (cycles s).

Definition set_timers (x : list nat) (s : BatchedSink) :=
  mkBatchedSink (maxSize s) (period s) (durableStore s) (innerSink s)
    (batchedEvents s) (batchTimeout s) (batchKey s) (shouldCycleContinue s) x
    (nextTimer s) (clockReads s) (inFlight s) (received s) (cycles s).

Definition set_nextTimer (x : nat) (s : BatchedSink) :=
  mkBatchedSink (maxSize s) (period s) (durableStore s) (innerSink s)
    (batchedEvents s) (batchTimeout s) (batchKey s) (shouldCycleContinue s)
    (timers s) x (clockReads s) (inFlight s) (received s) (cycles s).

Definition set_clockReads (x : nat) (s : BatchedSink) :=
  mkBatchedSink (maxSize s) (period s) (durableStore s) (innerSink s)
    (batchedEvents s) (batchTimeout s) (batchKey s) (shouldCycleContinue s)
    (timers s) (nextTimer s) x (inFlight s) (received s) (cycles s).

Definition set_inFlight (x : list Dispatch) (s : BatchedSink) :=
  mkBatchedSink (maxSize s) (period s) (durableStore s) (innerSink s)
    (batchedEvents s) (batchTimeout s) (batchKey s) (shouldCycleContinue s)
    (timers s) (nextTimer s) (clockReads s) x (received s) (cycles s).

Definition set_received (x : list (list LogEvent)) (s : BatchedSink) :=
  mkBatchedSink (maxSize s) (period s) (durableStore s) (innerSink s)
    (batchedEvents s) (batchTimeout s) (batchKey s) (shouldCycleContinue s)
    (timers s) (nextTimer s) (clockReads s) (inFlight s) x (cycles s).

Definition set_cycles (x : nat) (s : BatchedSink) :=
  mkBatchedSink (maxSize s) (period s) (durableStore s) (innerSink s)
    (batchedEvents s) (batchTimeout s) (batchKey s) (shouldCycleContinue s)
    (timers s) (nextTimer s) (clockReads s) (inFlight s) (received s) x.

(** ** The runtime *)

(** [clearTimeout(id)]: the timeout is no longer armed. *)
Definition clearTimeout (id : nat) (s : BatchedSink) : BatchedSink :=
  set_timers (remove Nat.eq_dec id (timers s)) s.

(** [setTimeout(() => this.cycleBatch(), ...)]: arms a fresh timeout and
    returns its handle.  The delay is not modelled: an armed timeout may
    fire at any later moment. *)
Definition setTimeout (s : BatchedSink) : nat * BatchedSink :=
  let id := nextTimer s in
  (id, set_nextTimer (S id) (set_timers (id :: timers s) s)).

(** [new Date().getTime()] *)
Definition Date_getTime (s : BatchedSink) : Z * BatchedSink :=
  (getTime (clockReads s), set_clockReads (S (clockReads s)) s).

(** [this.batchedEvents.push(...events)], where the engine takes the
    events as the arguments of one call; [pushSpread] below is the same
    call with the limit an engine puts on the number of arguments. *)
Definition push (events : list LogEvent) (s : BatchedSink) : BatchedSink :=
  set_batchedEvents (batchedEvents s ++ events) s.

(** ** The methods *)

Definition storeEvents (s : BatchedSink) : BatchedSink :=
  match durableStore s with
  | Some st =>
      set_durableStore
        (Some (setItem st (batchKey s) (JSON_stringify (batchedEvents s)))) s
  | None => s
  end.

Definition emitCore (events : list LogEvent) (s : BatchedSink)
  : value * BatchedSink :=
  match innerSink s with
  | Some k => (sinkEmit k events, set_received (received s ++ [events]) s)
  | None => (NotAPromise, s)
  end.

Definition flushCore (s : BatchedSink) : value :=
  match innerSink s with
  | Some k => sinkFlush k
  | None => APromise PromiseResolve
  end.

Definition instanceofPromise (v : value) : bool :=
  match v with APromise _ => true | NotAPromise => false end.

Definition cycleBatch (s : BatchedSink) : BatchedSink :=
  let s := set_cycles (S (cycles s)) s in
  let s := match batchTimeout s with
           | Some id => clearTimeout id s
           | None => s
           end in
  if negb (shouldCycleContinue s) then s
  else
    let s :=
      match batchedEvents s with
      | [] => s
      | _ :: _ =>
          let processEvents := batchedEvents s in
          let s := set_batchedEvents [] s in
          let previousBatchKey := batchKey s in
          let (emitPromise, s) := emitCore processEvents s in
          set_inFlight
            (inFlight s ++
             [{| processEvents := processEvents;
                 previousBatchKey := previousBatchKey;
                 emitPromiseIsPromise := instanceofPromise emitPromise |}]) s
      end in
    let (now, s) := Date_getTime s in
    let s :=
      set_batchKey
        (durableStorageKey ++ "-" ++ numberToString now)%string s in
    if negb (isNaN (period s)) && gt0 (period s) then
      let (id, s) := setTimeout s in
      set_batchTimeout (Some id) s
    else s.

(** The [while] loop of [emit]; it runs out of [fuel] where the loop does
    not end. *)
Fixpoint emitLoop (fuel : nat) (events : list LogEvent) (cursor : Z)
  (s : BatchedSink) : option BatchedSink :=
  if cursor <? Z.of_nat (length events) then
    match fuel with
    | O => None
    | S fuel' =>
        let s := cycleBatch s in
        let s := push (slice events cursor (cursor + maxSize s)) s in
        let cursor := cursor + maxSize s in
        let s := storeEvents s in
        emitLoop fuel' events cursor s
    end
  else Some s.

Definition emitFuel (fuel : nat) (events : list LogEvent) (s : BatchedSink)
  : option (BatchedSink * list LogEvent) :=
  if Z.of_nat (length (batchedEvents s)) + Z.of_nat (length events)
     <=? maxSize s
  then
    let s := push events s in
    let s := storeEvents s in
    Some (s, events)
  else
    let cursor :=
      if maxSize s - Z.of_nat (length (batchedEvents s)) <? 0 then 0
      else maxSize s - Z.of_nat (length (batchedEvents s)) in
    let s := push (slice events 0 cursor) s in
    let s := storeEvents s in
    match emitLoop fuel events cursor s with
    | Some s => Some (s, events)
    | None => None
    end.

(** One turn of the loop per event is enough whenever the loop ends. *)
Definition emit (events : list LogEvent) (s : BatchedSink)
  : option (BatchedSink * list LogEvent) :=
  emitFuel (length events) events s.

Definition flush (s : BatchedSink) : BatchedSink * promise :=
  let s := cycleBatch s in
  let corePromise := flushCore s in
  (s, match corePromise with
      | APromise p => p
      | NotAPromise => PromiseResolve
      end).

Definition stopCycle (s : BatchedSink) : BatchedSink :=
  let s := set_shouldCycleContinue false s in
  match batchTimeout s with
  | Some id => clearTimeout id s
  | None => s
  end.

(** The handlers of the promise chain built in [cycleBatch]. *)
Definition onFulfilled (d : Dispatch) (s : BatchedSink) : BatchedSink :=
  match durableStore s with
  | Some st => set_durableStore (Some (removeItem st (previousBatchKey d))) s
  | None => s
  end.

(** [this.batchedEvents.unshift(...processEvents)] *)
Definition onRejected (d : Dispatch) (s : BatchedSink) : BatchedSink :=
  set_batchedEvents (processEvents d ++ batchedEvents s) s.

(** The [for ... in] loop of the constructor, over the keys the store had
    when the loop began; a key deleted before its turn is not visited. *)
Fixpoint rehydrate (keys : list string) (st : Storage)
  (initialBatch : list LogEvent) : option (Storage * list LogEvent) :=
  match keys with
  | [] => Some (st, initialBatch)
  | key :: rest =>
      if startsWith durableStorageKey key then
        match getItem st key with
        | None => rehydrate rest st initialBatch
        | Some text =>
            match JSON_parse text with
            | None => None
            | Some storedEvents =>
                rehydrate rest (removeItem st key)
                  (initialBatch ++ storedEvents)
            end
        end
      else rehydrate rest st initialBatch
  end.

(** The field initialisers, and the assignments of the constructor up to
    its first call of [cycleBatch]; no timeout is armed, the clock was
    never read, the inner sink was never called. *)
Definition fresh (innerSink : option Sink) (maxSize : Z) (period : number)
  (durableStore : option Storage) : BatchedSink :=
  {| maxSize := maxSize; period := period;
     durableStore := durableStore;
     innerSink := innerSink;
     batchedEvents := [];
     batchTimeout := None;
     batchKey := "";
     shouldCycleContinue := true;
     timers := []; nextTimer := 1%nat; clockReads := 0%nat;
     inFlight := []; received := []; cycles := 0%nat |}.

(** [new BatchedSink(innerSink, options)].  It fails where the
    constructor throws (a stored text that does not parse) and where its
    call of [emit] does not return. *)
Definition new (innerSink : option Sink) (options : option BatchedSinkOptions)
  : option BatchedSink :=
  let options := spread defaultBatchedSinkOptions options in
  match opt_maxSize options, opt_period options with
  | Some maxSize, Some period =>
      let s := fresh innerSink maxSize period (opt_durableStore options) in
      let s := cycleBatch s in
      match durableStore s with
      | Some st =>
          match rehydrate (storageKeys st) st [] with
          | Some (st, initialBatch) =>
              match emit initialBatch (set_durableStore (Some st) s) with
              | Some (s, _) => Some s
              | None => None
              end
          | None => None
          end
      | None => Some s
      end
  | _, _ => None
  end.

(** ** What can happen to a sink, one event at a time *)

Inductive Action : Type :=
| Emit (events : list LogEvent)
| Flush
| StopCycle
| TimerFires (id : nat)
| Settle (i : nat) (o : outcome).

Fixpoint dropNth {A : Type} (i : nat) (l : list A) : list A :=
  match i, l with
  | _, [] => []
  | O, _ :: l => l
  | S i, a :: l => a :: dropNth i l
  end.

(** A step is [None] where the action cannot happen: a timeout that is
    not armed does not fire, a dispatch that is not in flight does not
    settle, [Promise.resolve()] does not reject. *)
Definition step (a : Action) (s : BatchedSink) : option BatchedSink :=
  match a with
  | Emit events =>
      match emit events s with
      | Some (s, _) => Some s
      | None => None
      end
  | Flush => Some (fst (flush s))
  | StopCycle => Some (stopCycle s)
  | TimerFires id =>
      if existsb (Nat.eqb id) (timers s)
      then Some (cycleBatch (clearTimeout id s))
      else None
  | Settle i o =>
      match nth_error (inFlight s) i with
      | None => None
      | Some d =>
          let s := set_inFlight (dropNth i (inFlight s)) s in
          match o with
          | Fulfilled => Some (onFulfilled d s)
          | Rejected =>
              if emitPromiseIsPromise d then Some (onRejected d s) else None
          end
      end
  end.

Fixpoint run (acts : list Action) (s : BatchedSink) : option BatchedSink :=
  match acts with
  | [] => Some s
  | a :: acts =>
      match step a s with
      | Some s => run acts s
      | None => None
      end
  end.

End BatchedSink.

Arguments Sink : clear implicits.
Arguments Dispatch : clear implicits.
Arguments BatchedSink : clear implicits.
Arguments Action : clear implicits.

(** ** The limit on the arguments of a call

    [push(...events)] spreads the events into the arguments of one call,
    and an engine takes only so many: past its limit the call throws a
    [RangeError] before anything is pushed.  Nothing in the class guards
    against it, so the error leaves [emit] as it arose.  What follows is
    [emit] again, with every [push] checked against the limit. *)

Section Spread.

Context {LogEvent : Type}.
Variable JSON_stringify : list LogEvent -> string.
Variable getTime : nat -> Z.

(** The largest number of arguments the engine takes in one call. *)
Variable argumentLimit : Z.

(** How a call of [emit] ends: it returns [result], or it throws; [s] is
    the sink as the call leaves it. *)
Inductive completion : Type :=
| Returns (s : BatchedSink LogEvent) (result : list LogEvent)
| Throws (s : BatchedSink LogEvent).

(** [this.batchedEvents.push(...events)]; [None] is the [RangeError]. *)
Definition pushSpread (events : list LogEvent) (s : BatchedSink LogEvent)
  : option (BatchedSink LogEvent) :=
  if Z.of_nat (length events) <=? argumentLimit
  then Some (push events s) else None.

Fixpoint emitLoopSpread (fuel : nat) (events : list LogEvent) (cursor : Z)
  (s : BatchedSink LogEvent) : option completion :=
  if cursor <? Z.of_nat (length events) then
    match fuel with
    | O => None
    | S fuel' =>
        let s := cycleBatch getTime s in
        match pushSpread (slice events cursor (cursor + maxSize s)) s with
        | None => Some (Throws s)
        | Some s =>
            let cursor := cursor + maxSize s in
            let s := storeEvents JSON_stringify s in
            emitLoopSpread fuel' events cursor s
        end
    end
  else Some (Returns s events).

Definition emitSpreadFuel (fuel : nat) (events : list LogEvent)
  (s : BatchedSink LogEvent) : option completion :=
  if Z.of_nat (length (batchedEvents s)) + Z.of_nat (length events)
     <=? maxSize s
  then
    match pushSpread events s with
    | None => Some (Throws s)
    | Some s =>
        let s := storeEvents JSON_stringify s in
        Some (Returns s events)
    end
  else
    let cursor :=
      if maxSize s - Z.of_nat (length (batchedEvents s)) <? 0 then 0
      else maxSize s - Z.of_nat (length (batchedEvents s)) in
    match pushSpread (slice events 0 cursor) s with
    | None => Some (Throws s)
    | Some s =>
        let s := storeEvents JSON_stringify s in
        emitLoopSpread fuel events cursor s
    end.

Definition emitSpread (events : list LogEvent) (s : BatchedSink LogEvent)
  : option completion :=
  emitSpreadFuel (length events) events s.

End Spread.

Arguments completion : clear implicits.

(** The longest list of arguments [emit] gives to [push]: the events
    themselves where they fit; otherwise the slice that fills the buffer
    or, if longer, the first slice of the loop, no later slice being longer
    than that one. *)
Definition largestSpread {LogEvent : Type} (events : list LogEvent)
  (s : BatchedSink LogEvent) : Z :=
  if Z.of_nat (length (batchedEvents s)) + Z.of_nat (length events)
     <=? maxSize s
  then Z.of_nat (length events)
  else
    let cursor :=
      if maxSize s - Z.of_nat (length (batchedEvents s)) <? 0 then 0
      else maxSize s - Z.of_nat (length (batchedEvents s)) in
    Z.max (Z.of_nat (length (slice events 0 cursor)))
      (if cursor <? Z.of_nat (length events)
       then Z.of_nat (length (slice events cursor (cursor + maxSize s)))
       else 0).

(** [ceil(a / b)] for a positive [b]. *)
Definition ceilDiv (a b : Z) : Z := (a + b - 1) / b.

(** The store is a map: no key is bound twice. *)
Definition storeOk {LogEvent : Type} (s : BatchedSink LogEvent) : Prop :=
  match durableStore s with
  | Some st => NoDup (storageKeys st)
  | None => True
  end.

(** The entries of a store that belong to the sink. *)
Definition ownEntries (st : Storage) : Storage :=
  filter (fun kv => startsWith durableStorageKey (fst kv)) st.

Definition foreignEntries (st : Storage) : Storage :=
  filter (fun kv => negb (startsWith durableStorageKey (fst kv))) st.

(** The batches one call of [cycleBatch] passes to the inner sink. *)
Definition handedOver {LogEvent : Type} (s : BatchedSink LogEvent)
  : list (list LogEvent) :=
  if shouldCycleContinue s then
    match batchedEvents s, innerSink s with
    | _ :: _, Some _ => [batchedEvents s]
    | _, _ => []
    end
  else [].

(** The place in [events] where the loop of an overflowing [emit]
    starts: what is left of the capacity. *)
Definition firstCursor {LogEvent : Type} (s : BatchedSink LogEvent) : Z :=
  Z.max 0 (maxSize s - Z.of_nat (length (batchedEvents s))).

(** Every armed timeout is the one the sink holds the handle of. *)
Definition timersOwned {LogEvent : Type} (s : BatchedSink LogEvent) : Prop :=
  forall id, In id (timers s) -> batchTimeout s = Some id.

(** Halted, and no timeout armed. *)
Definition haltedQuiet {LogEvent : Type} (s : BatchedSink LogEvent) : Prop :=
  shouldCycleContinue s = false /\ timers s = [].

(** The entry under the current key holds the current buffer. *)
Definition mirrored {LogEvent : Type}
  (JSON_stringify : list LogEvent -> string) (s : BatchedSink LogEvent)
  : Prop :=
  forall st, durableStore s = Some st ->
    getItem st (batchKey s) = Some (JSON_stringify (batchedEvents s)).

(** From [s] to [s'] no key left the store. *)
Definition storeGrows {LogEvent : Type} (s s' : BatchedSink LogEvent) : Prop :=
  match durableStore s, durableStore s' with
  | Some st, Some st' =>
      forall key, getItem st key <> None -> getItem st' key <> None
  | None, None => True
  | _, _ => False
  end.

(** The key a cycle assigns when the clock reads [now]. *)
Definition keyAt (now : Z) : string :=
  (durableStorageKey ++ "-" ++ numberToString now)%string.

(** The test that guards [setTimeout] in [cycleBatch]. *)
Definition periodic {LogEvent : Type} (s : BatchedSink LogEvent) : bool :=
  negb (isNaN (period s)) && gt0 (period s).

(** The events given to [emit] along a history, in order. *)
Definition emitted {LogEvent : Type} (acts : list (Action LogEvent))
  : list LogEvent :=
  flat_map (fun a => match a with Emit events => events | _ => [] end) acts.

Definition isRejection {LogEvent : Type} (a : Action LogEvent) : bool :=
  match a with Settle _ Rejected => true | _ => false end.

(** The key of the buffer and the keys of the dispatches in flight all
    start with [durableStorageKey]. *)
Definition keysOwn {LogEvent : Type} (s : BatchedSink LogEvent) : Prop :=
  startsWith durableStorageKey (batchKey s) = true /\
  Forall (fun d => startsWith durableStorageKey (previousBatchKey d) = true)
    (inFlight s).

(** The store of [s] agrees with [st0] on every key that does not start
    with [durableStorageKey]. *)
Definition foreignKept {LogEvent : Type} (st0 : Storage)
  (s : BatchedSink LogEvent) : Prop :=
  exists st, durableStore s = Some st /\
    forall key, startsWith durableStorageKey key = false ->
      getItem st key = getItem st0 key.

(** A running sink holds at most [maxSize] events, and no batch the inner
    sink received was longer. *)
Definition withinCapacity {LogEvent : Type} (s : BatchedSink LogEvent)
  : Prop :=
  (shouldCycleContinue s = false \/
   Z.of_nat (length (batchedEvents s)) <= maxSize s) /\
  Forall (fun b => Z.of_nat (length b) <= maxSize s) (received s).

(** A running sink with a positive period has exactly one timeout armed,
    the one it holds the handle of; any other sink has none. *)
Definition oneTimeout {LogEvent : Type} (s : BatchedSink LogEvent) : Prop :=
  if shouldCycleContinue s && periodic s
  then exists id, batchTimeout s = Some id /\ timers s = [id]
  else timers s = [].

(** ** A concrete setting for examples: events are small numbers, written
    as one digit each; the clock advances by one at every reading. *)
Definition digitsOf (l : list nat) : string :=
  string_of_list_ascii (map (fun n => ascii_of_nat (48 + n)) l).

Definition ofDigits (text : string) : option (list nat) :=
  Some (map (fun c => (nat_of_ascii c - 48)%nat) (list_ascii_of_string text)).

Definition ticking (n : nat) : Z := Z.of_nat n.

(** A clock that reads the same millisecond every time. *)
Definition frozen (n : nat) : Z := 0.


Definition promisingSink : Sink nat :=
  {| sinkEmit := fun _ => APromise (SinkPromise 1);
     sinkFlush := APromise (SinkPromise 0) |}.


Definition manualOptions (size : Z) (store : option Storage)
  : BatchedSinkOptions :=
  {| opt_maxSize := Some size;
     opt_period := Some (Num (0 # 1));
     opt_durableStore := store |}.

(** A sink of capacity 3 without periodic timeout and without store, as
    its constructor leaves it. *)
Definition exampleSink : BatchedSink nat :=
  cycleBatch ticking (fresh (Some promisingSink) 3 (Num (0 # 1)) None).

(** A store left behind by an earlier process, among other entries. *)
Definition exampleStore : Storage :=
  [("serilogger-batched-sink-durable-cache-100", "1");
   ("theme", "dark");
   ("serilogger-batched-sink-durable-cache-200", "23")]%string.

(** * Properties *)

(** ** The store *)

Lemma getItem_setItem_same (st : Storage) (key value : string) :
  getItem (setItem st key value) key = Some value.
Proof.
  induction st as [|[k v] st IH]; simpl.
  - now rewrite String.eqb_refl.
  - destruct (String.eqb k key) eqn:E; simpl; rewrite E; auto.
Qed.

Lemma getItem_setItem_other (st : Storage) (key value key' : string) :
  key <> key' -> getItem (setItem st key value) key' = getItem st key'.
Proof.
  intros Hne. induction st as [|[k v] st IH]; simpl.
  - destruct (String.eqb key key') eqn:E; auto.
    apply String.eqb_eq in E. contradiction.
  - destruct (String.eqb k key) eqn:E; simpl.
    + apply String.eqb_eq in E. subst k.
      destruct (String.eqb key key') eqn:E'; auto.
      apply String.eqb_eq in E'. contradiction.
    + now rewrite IH.
Qed.

Lemma getItem_setItem_stays (st : Storage) (key value key' : string) :
  getItem st key' <> None -> getItem (setItem st key value) key' <> None.
Proof.
  intros H. destruct (string_dec key key') as [->|Hne].
  - now rewrite getItem_setItem_same.
  - now rewrite getItem_setItem_other.
Qed.

Lemma storageKeys_setItem (st : Storage) (key value k : string) :
  In k (storageKeys (setItem st key value)) <-> k = key \/ In k (storageKeys st).
Proof.
  unfold storageKeys. induction st as [|[k0 v0] st IH]; simpl.
  - intuition.
  - destruct (String.eqb k0 key) eqn:E; simpl.
    + apply String.eqb_eq in E. subst. intuition.
    + rewrite IH. intuition.
Qed.

Lemma NoDup_setItem (st : Storage) (key value : string) :
  NoDup (storageKeys st) -> NoDup (storageKeys (setItem st key value)).
Proof.
  induction st as [|[k0 v0] st IH]; simpl; intros H.
  - repeat constructor. intros [].
  - inversion H as [|? ? Hnin Hnd]; subst.
    destruct (String.eqb k0 key) eqn:E; simpl.
    + constructor; assumption.
    + constructor; [|now apply IH].
      intros Hin. apply (storageKeys_setItem st key value k0) in Hin.
      destruct Hin as [->|Hin]; [|contradiction].
      now rewrite String.eqb_refl in E.
Qed.

Lemma NoDup_filter_keys (f : string * string -> bool) (st : Storage) :
  NoDup (storageKeys st) -> NoDup (storageKeys (filter f st)).
Proof.
  unfold storageKeys.
  induction st as [|kv st IH]; simpl; intros H; [constructor|].
  inversion H as [|? ? Hnin Hnd]; subst.
  destruct (f kv); simpl; [constructor|]; auto.
  intros Hin. apply Hnin. apply in_map_iff in Hin.
  destruct Hin as (x & Hx & Hin). apply filter_In in Hin.
  apply in_map_iff. exists x. tauto.
Qed.

Lemma getItem_removeItem_same (st : Storage) (key : string) :
  getItem (removeItem st key) key = None.
Proof.
  unfold removeItem. induction st as [|[k v] st IH]; simpl; auto.
  destruct (String.eqb k key) eqn:E; simpl; auto. now rewrite E.
Qed.

Lemma getItem_removeItem_other (st : Storage) (key key' : string) :
  key <> key' -> getItem (removeItem st key) key' = getItem st key'.
Proof.
  intros Hne. unfold removeItem.
  induction st as [|[k v] st IH]; simpl; auto.
  destruct (String.eqb k key) eqn:E; simpl.
  - apply String.eqb_eq in E. subst k.
    destruct (String.eqb key key') eqn:E'; auto.
    apply String.eqb_eq in E'. contradiction.
  - now rewrite IH.
Qed.

Lemma getItem_In (st : Storage) (key value : string) :
  NoDup (storageKeys st) -> In (key, value) st -> getItem st key = Some value.
Proof.
  induction st as [|[k v] st IH]; simpl; intros Hnd Hin; [easy|].
  inversion Hnd as [|? ? Hnin Hnd']; subst.
  destruct Hin as [Heq|Hin].
  - inversion Heq; subst. now rewrite String.eqb_refl.
  - destruct (String.eqb k key) eqn:E; [|auto].
    apply String.eqb_eq in E. subst k. exfalso. apply Hnin.
    unfold storageKeys. apply in_map_iff. now exists (key, value).
Qed.

(** ** Slices *)

Lemma slice_from_zero {A : Type} (l : list A) (c : Z) :
  0 <= c -> slice l 0 c = firstn (Z.to_nat c) l.
Proof.
  intros Hc. unfold slice, sliceIndex.
  change (0 <? 0) with false. cbv iota.
  destruct (c <? 0) eqn:E; [lia|].
  rewrite (Z.min_l 0) by lia. rewrite Z.sub_0_r.
  change (skipn (Z.to_nat 0) l) with l.
  destruct (Z.le_gt_cases c (Z.of_nat (length l))).
  - rewrite Z.min_l by lia. f_equal. lia.
  - rewrite Z.min_r by lia.
    rewrite !firstn_all2; auto; lia.
Qed.

Lemma slice_window {A : Type} (l : list A) (c m : Z) :
  0 <= c -> 0 < m ->
  slice l c (c + m) = firstn (Z.to_nat m) (skipn (Z.to_nat c) l).
Proof.
  intros Hc Hm. unfold slice, sliceIndex.
  destruct (c <? 0) eqn:E; [lia|].
  destruct (c + m <? 0) eqn:E'; [lia|].
  destruct (Z.le_gt_cases (Z.of_nat (length l)) c).
  - rewrite !Z.min_r by lia.
    rewrite !skipn_all2 by lia. now rewrite !firstn_nil.
  - rewrite (Z.min_l c) by lia.
    destruct (Z.le_gt_cases (c + m) (Z.of_nat (length l))).
    + rewrite Z.min_l by lia. f_equal. lia.
    + rewrite Z.min_r by lia.
      rewrite !firstn_all2; auto; rewrite length_skipn; lia.
Qed.

Lemma skipn_window {A : Type} (l : list A) (c m : Z) :
  0 <= c -> 0 < m ->
  skipn (Z.to_nat c) l = slice l c (c + m) ++ skipn (Z.to_nat (c + m)) l.
Proof.
  intros Hc Hm. rewrite slice_window by assumption.
  replace (Z.to_nat (c + m)) with (Z.to_nat m + Z.to_nat c)%nat by lia.
  rewrite <- skipn_skipn. now rewrite firstn_skipn.
Qed.

Lemma slice_window_length {A : Type} (l : list A) (c m : Z) :
  0 <= c -> 0 < m -> Z.of_nat (length (slice l c (c + m))) <= m.
Proof.
  intros Hc Hm. rewrite slice_window by assumption.
  rewrite length_firstn. lia.
Qed.

Lemma ceilDiv_step (a m : Z) :
  0 < a -> 0 < m -> ceilDiv a m = 1 + Z.max 0 (ceilDiv (a - m) m).
Proof.
  intros Ha Hm. unfold ceilDiv.
  replace (a - m + m - 1) with (a - 1) by lia.
  replace (a + m - 1) with (a - 1 + 1 * m) by lia.
  rewrite Z.div_add by lia.
  assert (0 <= (a - 1) / m) by (apply Z.div_pos; lia). lia.
Qed.

Lemma ceilDiv_nonpos (a m : Z) :
  a <= 0 -> 0 < m -> Z.max 0 (ceilDiv a m) = 0.
Proof.
  intros Ha Hm. unfold ceilDiv.
  assert ((a + m - 1) / m <= 0); [|lia].
  destruct (Z.eq_dec a 0) as [->|].
  - rewrite Z.div_small by lia. lia.
  - assert ((a + m - 1) / m < 1); [|lia].
    apply Z.div_lt_upper_bound; lia.
Qed.

Section Proofs.

Context {LogEvent : Type}.
Variable JSON_stringify : list LogEvent -> string.
Variable JSON_parse : string -> option (list LogEvent).
Variable getTime : nat -> Z.

Implicit Types (s : BatchedSink LogEvent) (events : list LogEvent).

(** ** One cycle *)

Ltac fields :=
  cbn [maxSize period durableStore innerSink batchedEvents batchTimeout
       batchKey shouldCycleContinue timers nextTimer clockReads inFlight
       received cycles set_durableStore set_batchedEvents set_batchTimeout
       set_batchKey set_shouldCycleContinue set_timers set_nextTimer
       set_clockReads set_inFlight set_received set_cycles negb fst snd].

Ltac cycle_cases s :=
  unfold cycleBatch, emitCore, Date_getTime, setTimeout, clearTimeout,
    handedOver;
  destruct s as [m p ds k be bt bk scc tm nt cr fl rc cy]; simpl;
  destruct bt; destruct scc; simpl; try reflexivity;
  destruct be; simpl; destruct k; simpl;
  destruct (negb (isNaN p) && gt0 p); simpl; try reflexivity.

Lemma cycleBatch_maxSize s : maxSize (cycleBatch getTime s) = maxSize s.
Proof. cycle_cases s. Qed.

Lemma cycleBatch_period s : period (cycleBatch getTime s) = period s.
Proof. cycle_cases s. Qed.

Lemma cycleBatch_innerSink s : innerSink (cycleBatch getTime s) = innerSink s.
Proof. cycle_cases s. Qed.

Lemma cycleBatch_shouldCycleContinue s :
  shouldCycleContinue (cycleBatch getTime s) = shouldCycleContinue s.
Proof. cycle_cases s. Qed.

Lemma cycleBatch_durableStore s :
  durableStore (cycleBatch getTime s) = durableStore s.
Proof. cycle_cases s. Qed.

Lemma cycleBatch_cycles s : cycles (cycleBatch getTime s) = S (cycles s).
Proof. cycle_cases s. Qed.

Lemma cycleBatch_received s :
  received (cycleBatch getTime s) = received s ++ handedOver s.
Proof. cycle_cases s; now rewrite app_nil_r. Qed.

Lemma cycleBatch_batchedEvents s :
  batchedEvents (cycleBatch getTime s)
  = if shouldCycleContinue s then [] else batchedEvents s.
Proof. cycle_cases s. Qed.

(** What a halted sink does on a cycle: it disarms its timeout, and
    nothing else changes (but the count of cycles). *)
Lemma cycleBatch_halted s :
  shouldCycleContinue s = false ->
  cycleBatch getTime s
  = set_cycles (S (cycles s))
      (set_timers
         (match batchTimeout s with
          | Some id => remove Nat.eq_dec id (timers s)
          | None => timers s
          end) s).
Proof.
  intros H. destruct s; simpl in H; subst.
  unfold cycleBatch, clearTimeout; simpl.
  destruct batchTimeout0; reflexivity.
Qed.

Lemma handedOver_conserves s :
  (shouldCycleContinue s = true -> innerSink s <> None) ->
  concat (handedOver s) ++ batchedEvents (cycleBatch getTime s)
  = batchedEvents s.
Proof.
  intros Hk. rewrite cycleBatch_batchedEvents. unfold handedOver.
  destruct (shouldCycleContinue s); [|reflexivity].
  destruct (batchedEvents s) as [|e l]; [reflexivity|].
  destruct (innerSink s); [|now exfalso; apply Hk].
  simpl. now rewrite !app_nil_r.
Qed.

Lemma handedOver_bounded s (m : Z) :
  shouldCycleContinue s = false \/ Z.of_nat (length (batchedEvents s)) <= m ->
  Forall (fun b => Z.of_nat (length b) <= m) (handedOver s).
Proof.
  intros H. unfold handedOver.
  destruct (shouldCycleContinue s); [|constructor].
  destruct H as [H|H]; [discriminate|].
  destruct (batchedEvents s); [constructor|].
  destruct (innerSink s); repeat constructor. exact H.
Qed.

(** ** Appending and mirroring *)

Lemma storeEvents_batchedEvents s :
  batchedEvents (storeEvents JSON_stringify s) = batchedEvents s.
Proof. unfold storeEvents. now destruct (durableStore s). Qed.

Lemma storeEvents_received s :
  received (storeEvents JSON_stringify s) = received s.
Proof. unfold storeEvents. now destruct (durableStore s). Qed.

Lemma storeEvents_cycles s :
  cycles (storeEvents JSON_stringify s) = cycles s.
Proof. unfold storeEvents. now destruct (durableStore s). Qed.

Lemma storeEvents_maxSize s :
  maxSize (storeEvents JSON_stringify s) = maxSize s.
Proof. unfold storeEvents. now destruct (durableStore s). Qed.

Lemma storeEvents_innerSink s :
  innerSink (storeEvents JSON_stringify s) = innerSink s.
Proof. unfold storeEvents. now destruct (durableStore s). Qed.

Lemma storeEvents_shouldCycleContinue s :
  shouldCycleContinue (storeEvents JSON_stringify s) = shouldCycleContinue s.
Proof. unfold storeEvents. now destruct (durableStore s). Qed.

Lemma push_maxSize events s : maxSize (push events s) = maxSize s.
Proof. reflexivity. Qed.

Lemma push_innerSink events s : innerSink (push events s) = innerSink s.
Proof. reflexivity. Qed.

Lemma push_shouldCycleContinue events s :
  shouldCycleContinue (push events s) = shouldCycleContinue s.
Proof. reflexivity. Qed.

Lemma push_durableStore events s :
  durableStore (push events s) = durableStore s.
Proof. reflexivity. Qed.

(** ** The loop of [emit] *)

Lemma emitLoop_unfold fuel events (cursor : Z) s :
  emitLoop JSON_stringify getTime (S fuel) events cursor s
  = if cursor <? Z.of_nat (length events) then
      emitLoop JSON_stringify getTime fuel events (cursor + maxSize s)
        (storeEvents JSON_stringify
           (push (slice events cursor (cursor + maxSize s))
              (cycleBatch getTime s)))
    else Some s.
Proof.
  cbn [emitLoop]. unfold push. cbn [maxSize set_batchedEvents].
  now rewrite !cycleBatch_maxSize.
Qed.

Lemma emitLoop_spec fuel events : forall (cursor : Z) s,
  0 < maxSize s -> 0 <= cursor ->
  Z.of_nat (length events) - cursor <= Z.of_nat fuel * maxSize s ->
  exists s' batches,
    emitLoop JSON_stringify getTime fuel events cursor s = Some s' /\
    received s' = received s ++ batches /\
    ((shouldCycleContinue s = true -> innerSink s <> None) ->
     concat batches ++ batchedEvents s'
     = batchedEvents s ++ skipn (Z.to_nat cursor) events) /\
    (shouldCycleContinue s = false \/
     Z.of_nat (length (batchedEvents s)) <= maxSize s ->
     Forall (fun b => Z.of_nat (length b) <= maxSize s) batches) /\
    Z.of_nat (cycles s')
    = Z.of_nat (cycles s)
      + Z.max 0 (ceilDiv (Z.of_nat (length events) - cursor) (maxSize s)) /\
    maxSize s' = maxSize s /\ innerSink s' = innerSink s /\
    shouldCycleContinue s' = shouldCycleContinue s.
Proof.
  induction fuel as [|fuel IH]; intros cursor s Hm Hc Hfuel.
  - exists s, []. simpl.
    destruct (cursor <? Z.of_nat (length events)) eqn:E; [lia|].
    rewrite skipn_all2 by lia. rewrite ceilDiv_nonpos by lia.
    rewrite !app_nil_r. repeat split; auto; lia.
  - rewrite emitLoop_unfold.
    destruct (cursor <? Z.of_nat (length events)) eqn:E.
    + set (sl := slice events cursor (cursor + maxSize s)).
      set (s3 := storeEvents JSON_stringify (push sl (cycleBatch getTime s))).
      assert (Hm3 : maxSize s3 = maxSize s).
      { unfold s3. rewrite storeEvents_maxSize. apply cycleBatch_maxSize. }
      assert (Hk3 : innerSink s3 = innerSink s).
      { unfold s3. rewrite storeEvents_innerSink. apply cycleBatch_innerSink. }
      assert (Hs3 : shouldCycleContinue s3 = shouldCycleContinue s).
      { unfold s3. rewrite storeEvents_shouldCycleContinue.
        apply cycleBatch_shouldCycleContinue. }
      assert (Hb3 : batchedEvents s3
                    = batchedEvents (cycleBatch getTime s) ++ sl).
      { unfold s3. now rewrite storeEvents_batchedEvents. }
      assert (Hr3 : received s3 = received s ++ handedOver s).
      { unfold s3. rewrite storeEvents_received. apply cycleBatch_received. }
      assert (Hc3 : cycles s3 = S (cycles s)).
      { unfold s3. rewrite storeEvents_cycles. apply cycleBatch_cycles. }
      destruct (IH (cursor + maxSize s) s3) as
        (s' & batches & Hrun & Hrec & Hcat & Hall & Hcyc & Hm' & Hk' & Hs');
        try lia.
      exists s', (handedOver s ++ batches).
      split; [exact Hrun|]. split.
      { rewrite Hrec, Hr3. now rewrite app_assoc. }
      split.
      { intros Hsink. rewrite concat_app, <- app_assoc, Hcat.
        - rewrite Hb3, (skipn_window events cursor (maxSize s)) by lia.
          fold sl. rewrite !app_assoc. f_equal. f_equal.
          now apply handedOver_conserves.
        - now rewrite Hs3, Hk3. }
      split.
      { intros Hbound. apply Forall_app. split.
        - now apply handedOver_bounded.
        - rewrite <- Hm3. apply Hall. rewrite Hs3, Hb3, Hm3.
          rewrite cycleBatch_batchedEvents.
          destruct (shouldCycleContinue s); [right|now left].
          apply slice_window_length; lia. }
      split.
      { rewrite Hcyc, Hc3, Hm3.
        rewrite (ceilDiv_step (Z.of_nat (length events) - cursor)) by lia.
        replace (Z.of_nat (length events) - (cursor + maxSize s))
          with (Z.of_nat (length events) - cursor - maxSize s) by lia.
        lia. }
      repeat split; congruence.
    + exists s, []. rewrite skipn_all2 by lia.
      rewrite ceilDiv_nonpos by lia.
      rewrite !app_nil_r. repeat split; auto; lia.
Qed.

(** Where [maxSize] is not positive the loop never ends: no amount of
    fuel lets it return. *)
Lemma emitLoop_diverges fuel events : forall (cursor : Z) s,
  maxSize s <= 0 -> cursor < Z.of_nat (length events) ->
  emitLoop JSON_stringify getTime fuel events cursor s = None.
Proof.
  induction fuel as [|fuel IH]; intros cursor s Hm Hc.
  - simpl. destruct (cursor <? Z.of_nat (length events)) eqn:E; [auto|lia].
  - rewrite emitLoop_unfold.
    destruct (cursor <? Z.of_nat (length events)) eqn:E; [|lia].
    apply IH; [|lia].
    now rewrite storeEvents_maxSize, push_maxSize, cycleBatch_maxSize.
Qed.

(** A halted sink goes through the loop without touching the inner sink,
    the key, the dispatches in flight or its timeout handle. *)
Lemma emitLoop_halted fuel events : forall (cursor : Z) s s',
  shouldCycleContinue s = false ->
  emitLoop JSON_stringify getTime fuel events cursor s = Some s' ->
  received s' = received s /\ batchKey s' = batchKey s /\
  inFlight s' = inFlight s /\ batchTimeout s' = batchTimeout s.
Proof.
  induction fuel as [|fuel IH]; intros cursor s s' Hh Hrun.
  - simpl in Hrun.
    destruct (cursor <? Z.of_nat (length events)); [discriminate|].
    inversion Hrun; subst; auto.
  - rewrite emitLoop_unfold in Hrun.
    destruct (cursor <? Z.of_nat (length events)).
    + apply IH in Hrun.
      * rewrite (cycleBatch_halted s Hh) in Hrun.
        unfold storeEvents, push in Hrun. cbn in Hrun.
        destruct (durableStore s); exact Hrun.
      * now rewrite storeEvents_shouldCycleContinue,
          push_shouldCycleContinue, cycleBatch_shouldCycleContinue.
    + inversion Hrun; subst; auto.
Qed.

(** ** [emit] *)

Lemma emit_spec events s :
  0 < maxSize s ->
  exists s' batches,
    emit JSON_stringify getTime events s = Some (s', events) /\
    received s' = received s ++ batches /\
    ((shouldCycleContinue s = true -> innerSink s <> None) ->
     concat batches ++ batchedEvents s' = batchedEvents s ++ events) /\
    (shouldCycleContinue s = false \/
     Z.of_nat (length (batchedEvents s)) <= maxSize s ->
     Forall (fun b => Z.of_nat (length b) <= maxSize s) batches) /\
    Z.of_nat (cycles s')
    = Z.of_nat (cycles s)
      + (if Z.of_nat (length (batchedEvents s)) + Z.of_nat (length events)
            <=? maxSize s
         then 0
         else Z.max 0 (ceilDiv (Z.of_nat (length events) - firstCursor s)
                         (maxSize s))) /\
    maxSize s' = maxSize s /\ innerSink s' = innerSink s /\
    shouldCycleContinue s' = shouldCycleContinue s.
Proof.
  intros Hm. unfold emit, emitFuel.
  destruct (Z.of_nat (length (batchedEvents s)) + Z.of_nat (length events)
            <=? maxSize s) eqn:E.
  - exists (storeEvents JSON_stringify (push events s)), [].
    rewrite storeEvents_batchedEvents, storeEvents_received,
      storeEvents_cycles, storeEvents_maxSize, storeEvents_innerSink,
      storeEvents_shouldCycleContinue.
    cbn. rewrite app_nil_r, Z.add_0_r. repeat split; auto.
  - set (cursor := if maxSize s - Z.of_nat (length (batchedEvents s)) <? 0
                   then 0
                   else maxSize s - Z.of_nat (length (batchedEvents s))).
    assert (Hcur : cursor = firstCursor s).
    { unfold cursor, firstCursor.
      destruct (maxSize s - Z.of_nat (length (batchedEvents s)) <? 0) eqn:E';
        lia. }
    assert (Hc0 : 0 <= cursor) by (rewrite Hcur; unfold firstCursor; lia).
    set (s1 := storeEvents JSON_stringify (push (slice events 0 cursor) s)).
    assert (Hb1 : batchedEvents s1
                  = batchedEvents s ++ firstn (Z.to_nat cursor) events).
    { unfold s1. rewrite storeEvents_batchedEvents. cbn.
      now rewrite slice_from_zero. }
    assert (Hm1 : maxSize s1 = maxSize s)
      by (unfold s1; now rewrite storeEvents_maxSize).
    assert (Hk1 : innerSink s1 = innerSink s)
      by (unfold s1; now rewrite storeEvents_innerSink).
    assert (Hs1 : shouldCycleContinue s1 = shouldCycleContinue s)
      by (unfold s1; now rewrite storeEvents_shouldCycleContinue).
    assert (Hr1 : received s1 = received s)
      by (unfold s1; now rewrite storeEvents_received).
    assert (Hc1 : cycles s1 = cycles s)
      by (unfold s1; now rewrite storeEvents_cycles).
    destruct (emitLoop_spec (length events) events cursor s1) as
      (s' & batches & Hrun & Hrec & Hcat & Hall & Hcyc & Hm' & Hk' & Hs');
      try nia.
    exists s', batches. rewrite Hrun.
    split; [reflexivity|]. split; [congruence|]. split.
    { intros Hsink. rewrite Hcat by (now rewrite Hs1, Hk1).
      rewrite Hb1, <- app_assoc. now rewrite firstn_skipn. }
    split.
    { intros Hbound. rewrite <- Hm1. apply Hall. rewrite Hs1, Hm1, Hb1.
      destruct Hbound as [Hh|Hb]; [now left|right].
      rewrite length_app, length_firstn. rewrite Hcur. unfold firstCursor.
      lia. }
    split.
    { rewrite Hcyc, Hc1, Hm1, Hcur. reflexivity. }
    repeat split; congruence.
Qed.

Lemma ceilDiv_positive (a m : Z) : 0 < a -> 0 < m -> 1 <= ceilDiv a m.
Proof. intros Ha Hm. rewrite ceilDiv_step by assumption. lia. Qed.

(** [ceilDiv a m] is the least number of windows of width [m] covering
    [a]. *)
Lemma ceilDiv_least (a m : Z) :
  0 < m -> m * (ceilDiv a m - 1) < a <= m * ceilDiv a m.
Proof.
  intros Hm. unfold ceilDiv.
  pose proof (Z.div_mod (a + m - 1) m ltac:(lia)) as Hdm.
  pose proof (Z.mod_pos_bound (a + m - 1) m Hm) as Hb.
  nia.
Qed.

Lemma emit_halted events s s' (result : list LogEvent) :
  shouldCycleContinue s = false ->
  emit JSON_stringify getTime events s = Some (s', result) ->
  received s' = received s /\ batchKey s' = batchKey s /\
  inFlight s' = inFlight s /\ batchTimeout s' = batchTimeout s.
Proof.
  intros Hh. unfold emit, emitFuel.
  destruct (Z.of_nat (length (batchedEvents s)) + Z.of_nat (length events)
            <=? maxSize s).
  - intros H. inversion H; subst. unfold storeEvents, push. cbn.
    destruct (durableStore s); cbn; auto.
  - destruct emitLoop as [s1|] eqn:Hrun; [|discriminate].
    intros H. inversion H; subst.
    apply emitLoop_halted in Hrun.
    + unfold storeEvents, push in Hrun. cbn in Hrun.
      destruct (durableStore s); exact Hrun.
    + now rewrite storeEvents_shouldCycleContinue.
Qed.

Lemma slice_from_zero_length {A : Type} (l : list A) (c : Z) :
  0 <= c ->
  Z.of_nat (length (slice l 0 c)) = Z.min c (Z.of_nat (length l)).
Proof.
  intros Hc. rewrite slice_from_zero by assumption.
  rewrite length_firstn. lia.
Qed.

Lemma slice_window_length_exact {A : Type} (l : list A) (c m : Z) :
  0 <= c -> 0 < m -> c <= Z.of_nat (length l) ->
  Z.of_nat (length (slice l c (c + m))) = Z.min m (Z.of_nat (length l) - c).
Proof.
  intros Hc Hm Hn. rewrite slice_window by assumption.
  rewrite length_firstn, length_skipn. lia.
Qed.

(** The loop on a running sink whose buffer is full: every cycle hands
    over a batch of exactly [maxSize] events, and the last window stays in
    the buffer. *)
Lemma emitLoop_running fuel events : forall (cursor : Z) s (k : Sink LogEvent),
  0 < maxSize s -> 0 <= cursor ->
  Z.of_nat (length events) - cursor <= Z.of_nat fuel * maxSize s ->
  shouldCycleContinue s = true ->
  innerSink s = Some k ->
  (cursor < Z.of_nat (length events) ->
   Z.of_nat (length (batchedEvents s)) = maxSize s) ->
  (Z.of_nat (length events) <= cursor ->
   0 < Z.of_nat (length (batchedEvents s)) <= maxSize s) ->
  exists s' batches,
    emitLoop JSON_stringify getTime fuel events cursor s = Some s' /\
    received s' = received s ++ batches /\
    Forall (fun b => Z.of_nat (length b) = maxSize s) batches /\
    Z.of_nat (length batches)
    = Z.max 0 (ceilDiv (Z.of_nat (length events) - cursor) (maxSize s)) /\
    0 < Z.of_nat (length (batchedEvents s')) <= maxSize s.
Proof.
  induction fuel as [|fuel IH]; intros cursor s k Hm Hc Hfuel Hrun Hk Hfull Hlast.
  - exists s, []. simpl.
    destruct (cursor <? Z.of_nat (length events)) eqn:E;
      [apply Z.ltb_lt in E; lia|].
    apply Z.ltb_ge in E. rewrite ceilDiv_nonpos by lia.
    rewrite app_nil_r. repeat split; auto; apply Hlast; lia.
  - rewrite emitLoop_unfold.
    destruct (cursor <? Z.of_nat (length events)) eqn:E.
    + apply Z.ltb_lt in E.
      set (sl := slice events cursor (cursor + maxSize s)).
      set (s3 := storeEvents JSON_stringify (push sl (cycleBatch getTime s))).
      assert (Hsl : Z.of_nat (length sl)
                    = Z.min (maxSize s) (Z.of_nat (length events) - cursor)).
      { unfold sl. apply slice_window_length_exact; lia. }
      assert (Hm3 : maxSize s3 = maxSize s).
      { unfold s3. rewrite storeEvents_maxSize. apply cycleBatch_maxSize. }
      assert (Hk3 : innerSink s3 = Some k).
      { unfold s3. rewrite storeEvents_innerSink, push_innerSink,
          cycleBatch_innerSink. exact Hk. }
      assert (Hs3 : shouldCycleContinue s3 = true).
      { unfold s3. rewrite storeEvents_shouldCycleContinue,
          push_shouldCycleContinue, cycleBatch_shouldCycleContinue.
        exact Hrun. }
      assert (Hb3 : batchedEvents s3 = sl).
      { unfold s3. rewrite storeEvents_batchedEvents. cbn.
        now rewrite cycleBatch_batchedEvents, Hrun. }
      assert (Hh : handedOver s = [batchedEvents s]).
      { unfold handedOver. rewrite Hrun, Hk.
        destruct (batchedEvents s); [|reflexivity].
        specialize (Hfull E). simpl in Hfull. lia. }
      assert (Hr3 : received s3 = received s ++ [batchedEvents s]).
      { unfold s3. rewrite storeEvents_received. cbn.
        now rewrite cycleBatch_received, Hh. }
      destruct (IH (cursor + maxSize s) s3 k) as
        (s' & batches & Hloop & Hrec & Hall & Hlen & Hbuf); try lia;
        try assumption.
      * intros Hlt. rewrite Hb3, Hsl, Hm3. lia.
      * intros Hge. rewrite Hb3, Hsl, Hm3. lia.
      * exists s', (batchedEvents s :: batches).
        split; [exact Hloop|]. split.
        { rewrite Hrec, Hr3, <- app_assoc. reflexivity. }
        split.
        { constructor; [now apply Hfull|]. now rewrite <- Hm3. }
        split.
        { cbn [length]. rewrite Nat2Z.inj_succ, Hlen, Hm3.
          rewrite (ceilDiv_step (Z.of_nat (length events) - cursor)) by lia.
          replace (Z.of_nat (length events) - (cursor + maxSize s))
            with (Z.of_nat (length events) - cursor - maxSize s) by lia.
          lia. }
        now rewrite <- Hm3.
    + apply Z.ltb_ge in E. exists s, [].
      rewrite ceilDiv_nonpos by lia. rewrite app_nil_r.
      repeat split; auto; apply Hlast; lia.
Qed.

Lemma emit_overflow_running events s (k : Sink LogEvent) :
  0 < maxSize s ->
  Z.of_nat (length (batchedEvents s)) <= maxSize s ->
  maxSize s < Z.of_nat (length (batchedEvents s)) + Z.of_nat (length events) ->
  shouldCycleContinue s = true ->
  innerSink s = Some k ->
  exists s' batches,
    emit JSON_stringify getTime events s = Some (s', events) /\
    received s' = received s ++ batches /\
    Forall (fun b => Z.of_nat (length b) = maxSize s) batches /\
    Z.of_nat (length batches)
    = ceilDiv (Z.of_nat (length (batchedEvents s))
               + Z.of_nat (length events) - maxSize s) (maxSize s) /\
    0 < Z.of_nat (length (batchedEvents s')) <= maxSize s.
Proof.
  intros Hm Hb Hover Hrun Hk.
  set (cursor := maxSize s - Z.of_nat (length (batchedEvents s))).
  set (s1 := storeEvents JSON_stringify (push (slice events 0 cursor) s)).
  assert (Hb1 : Z.of_nat (length (batchedEvents s1)) = maxSize s).
  { unfold s1. rewrite storeEvents_batchedEvents. cbn.
    rewrite length_app, Nat2Z.inj_add, slice_from_zero_length
      by (unfold cursor; lia).
    unfold cursor. lia. }
  assert (Hm1 : maxSize s1 = maxSize s)
    by (unfold s1; now rewrite storeEvents_maxSize).
  assert (Hr1 : received s1 = received s)
    by (unfold s1; now rewrite storeEvents_received).
  destruct (emitLoop_running (length events) events cursor s1 k) as
    (s' & batches & Hloop & Hrec & Hall & Hlen & Hbuf).
  { now rewrite Hm1. }
  { unfold cursor. lia. }
  { rewrite Hm1. unfold cursor. nia. }
  { unfold s1. now rewrite storeEvents_shouldCycleContinue. }
  { unfold s1. now rewrite storeEvents_innerSink. }
  { intros _. now rewrite Hm1. }
  { unfold cursor. lia. }
  exists s', batches. split.
  { unfold emit, emitFuel.
    assert (E : (Z.of_nat (length (batchedEvents s))
                 + Z.of_nat (length events) <=? maxSize s) = false)
      by (apply Z.leb_gt; lia).
    assert (E' : (maxSize s - Z.of_nat (length (batchedEvents s)) <? 0)
                 = false) by (apply Z.ltb_ge; lia).
    rewrite E, E'. fold cursor. fold s1. now rewrite Hloop. }
  split; [congruence|].
  rewrite Hm1 in Hall, Hlen, Hbuf.
  split; [exact Hall|]. split; [|exact Hbuf].
  rewrite Hlen.
  replace (Z.of_nat (length events) - cursor)
    with (Z.of_nat (length (batchedEvents s))
          + Z.of_nat (length events) - maxSize s) by (unfold cursor; lia).
  pose proof (ceilDiv_positive
    (Z.of_nat (length (batchedEvents s)) + Z.of_nat (length events)
     - maxSize s) (maxSize s) ltac:(lia) Hm).
  lia.
Qed.

(** C1, as amended: an [emit] that overflows a buffer holding at most
    [maxSize] events hands the inner sink batches of at most [maxSize]
    events each; these batches in order, followed by what [emit] leaves in
    the buffer, are the events the buffer held followed by the events
    given; and the call forces [ceil(overflow / maxSize)] cycles.  On a
    running sink every one of these cycles hands over a batch, of exactly
    [maxSize] events, so that there are [ceil(overflow / maxSize)] batches,
    and what is left in the buffer is at least one event and at most
    [maxSize]; on a halted sink no batch is handed over. *)
Theorem emit_overflow_batches events s (k : Sink LogEvent) :
  0 < maxSize s ->
  Z.of_nat (length (batchedEvents s)) <= maxSize s ->
  maxSize s < Z.of_nat (length (batchedEvents s)) + Z.of_nat (length events) ->
  innerSink s = Some k ->
  exists s' batches,
    emit JSON_stringify getTime events s = Some (s', events) /\
    received s' = received s ++ batches /\
    Forall (fun b => Z.of_nat (length b) <= maxSize s) batches /\
    concat batches ++ batchedEvents s' = batchedEvents s ++ events /\
    Z.of_nat (cycles s') - Z.of_nat (cycles s)
    = ceilDiv (Z.of_nat (length (batchedEvents s))
               + Z.of_nat (length events) - maxSize s) (maxSize s) /\
    (shouldCycleContinue s = true ->
     Forall (fun b => Z.of_nat (length b) = maxSize s) batches /\
     Z.of_nat (length batches)
     = ceilDiv (Z.of_nat (length (batchedEvents s))
                + Z.of_nat (length events) - maxSize s) (maxSize s) /\
     0 < Z.of_nat (length (batchedEvents s')) <= maxSize s) /\
    (shouldCycleContinue s = false -> batches = []).
Proof.
  intros Hm Hb Hover Hk.
  destruct (emit_spec events s Hm) as
    (s' & batches & Hrun & Hrec & Hcat & Hall & Hcyc & _).
  exists s', batches.
  split; [exact Hrun|]. split; [exact Hrec|].
  split; [apply Hall; now right|].
  split; [apply Hcat; intros _; congruence|].
  split; [|split].
  - rewrite Hcyc.
    destruct (Z.of_nat (length (batchedEvents s)) + Z.of_nat (length events)
              <=? maxSize s) eqn:E; [apply Z.leb_le in E; lia|].
    unfold firstCursor.
    rewrite (Z.max_r 0 (maxSize s - Z.of_nat (length (batchedEvents s))))
      by lia.
    replace (Z.of_nat (length events)
             - (maxSize s - Z.of_nat (length (batchedEvents s))))
      with (Z.of_nat (length (batchedEvents s))
            + Z.of_nat (length events) - maxSize s) by lia.
    pose proof (ceilDiv_positive
      (Z.of_nat (length (batchedEvents s)) + Z.of_nat (length events)
       - maxSize s) (maxSize s) ltac:(lia) Hm).
    lia.
  - intros Hgo.
    destruct (emit_overflow_running events s k Hm Hb Hover Hgo Hk) as
      (s2 & batches2 & Hrun2 & Hrec2 & Hall2 & Hlen2 & Hbuf2).
    rewrite Hrun in Hrun2. injection Hrun2 as <-.
    rewrite Hrec in Hrec2. apply app_inv_head in Hrec2. subst batches2.
    auto.
  - intros Hh.
    destruct (emit_halted events s s' events Hh Hrun) as (Hr & _).
    rewrite Hr in Hrec. rewrite <- (app_nil_r (received s)) in Hrec at 1.
    now apply app_inv_head in Hrec.
Qed.

(** ** [emit] under the limit on arguments *)

Lemma emitLoopSpread_unfold (limit : Z) fuel events (cursor : Z) s :
  emitLoopSpread JSON_stringify getTime limit (S fuel) events cursor s
  = if cursor <? Z.of_nat (length events) then
      match pushSpread limit (slice events cursor (cursor + maxSize s))
              (cycleBatch getTime s) with
      | None => Some (Throws (cycleBatch getTime s))
      | Some s1 =>
          emitLoopSpread JSON_stringify getTime limit fuel events
            (cursor + maxSize s) (storeEvents JSON_stringify s1)
      end
    else Some (Returns s events).
Proof.
  cbn [emitLoopSpread]. rewrite !cycleBatch_maxSize.
  destruct (cursor <? Z.of_nat (length events)); [|reflexivity].
  unfold pushSpread.
  destruct (Z.of_nat (length (slice events cursor (cursor + maxSize s)))
            <=? limit); [|reflexivity].
  now rewrite push_maxSize, cycleBatch_maxSize.
Qed.



(** Past the limit [emit] throws: the hypothesis of the theorem below is
    as weak as can be. *)
Lemma emitSpread_throws (limit : Z) events s :
  limit < largestSpread events s ->
  exists s', emitSpread JSON_stringify getTime limit events s
             = Some (Throws s').
Proof.
  unfold largestSpread, emitSpread, emitSpreadFuel, pushSpread.
  destruct (Z.of_nat (length (batchedEvents s)) + Z.of_nat (length events)
            <=? maxSize s).
  - intros H. apply Z.leb_gt in H. rewrite H. eauto.
  - set (cursor := if maxSize s - Z.of_nat (length (batchedEvents s)) <? 0
                   then 0
                   else maxSize s - Z.of_nat (length (batchedEvents s))).
    intros H.
    destruct (Z.of_nat (length (slice events 0 cursor)) <=? limit) eqn:E1;
      [|eauto].
    apply Z.leb_le in E1.
    destruct (cursor <? Z.of_nat (length events)) eqn:E0; [|lia].
    destruct (length events) as [|fuel] eqn:Hlen;
      [apply Z.ltb_lt in E0; unfold cursor in E0;
       destruct (maxSize s - Z.of_nat (length (batchedEvents s)) <? 0) eqn:E';
       [simpl in E0; lia|apply Z.ltb_ge in E'; simpl in E0; lia]|].
    rewrite emitLoopSpread_unfold, Hlen, E0.
    rewrite storeEvents_maxSize, push_maxSize.
    unfold pushSpread.
    assert (E2 : (Z.of_nat (length (slice events cursor (cursor + maxSize s)))
                  <=? limit) = false) by (apply Z.leb_gt; lia).
    rewrite E2. eauto.
Qed.


(** With a [maxSize] that is not positive, an [emit] of events that do
    not fit never returns. *)
Lemma emit_never_returns fuel events s :
  maxSize s <= 0 -> events <> [] ->
  emitFuel JSON_stringify getTime fuel events s = None.
Proof.
  intros Hm Hne. unfold emitFuel.
  assert (0 < Z.of_nat (length events)) by (destruct events; simpl; [easy|lia]).
  destruct (Z.of_nat (length (batchedEvents s)) + Z.of_nat (length events)
            <=? maxSize s) eqn:E; [apply Z.leb_le in E; exfalso; lia|].
  rewrite emitLoop_diverges; [reflexivity| |].
  - now rewrite storeEvents_maxSize, push_maxSize.
  - destruct (maxSize s - Z.of_nat (length (batchedEvents s)) <? 0) eqn:E';
      lia.
Qed.

(** C10: once halted, a cycle only disarms the timeout, so an [emit] of
    more than [maxSize] events forces cycles that hand nothing to the inner
    sink and do not reset the buffer: all the events pile up in the one
    buffer, which ends up longer than [maxSize]. *)
Theorem emit_after_stop_accumulates events s :
  shouldCycleContinue s = false ->
  0 < maxSize s ->
  maxSize s < Z.of_nat (length events) ->
  cycleBatch getTime s
  = set_cycles (S (cycles s))
      (set_timers
         (match batchTimeout s with
          | Some id => remove Nat.eq_dec id (timers s)
          | None => timers s
          end) s) /\
  exists s',
    emit JSON_stringify getTime events s = Some (s', events) /\
    shouldCycleContinue s' = false /\
    (cycles s < cycles s')%nat /\
    received s' = received s /\
    inFlight s' = inFlight s /\
    batchKey s' = batchKey s /\
    batchedEvents s' = batchedEvents s ++ events /\
    maxSize s' < Z.of_nat (length (batchedEvents s')).
Proof.
  intros Hh Hm Hn. split; [now apply cycleBatch_halted|].
  destruct (emit_spec events s Hm) as
    (s' & batches & Hrun & Hrec & Hcat & _ & Hcyc & Hm' & _ & Hs').
  destruct (emit_halted events s s' events Hh Hrun) as (Hr & Hkey & Hfl & _).
  assert (batches = []) as ->.
  { rewrite Hr in Hrec. rewrite <- (app_nil_r (received s)) in Hrec at 1.
    now apply app_inv_head in Hrec. }
  exists s'. simpl in Hcat.
  assert (Hbuf : batchedEvents s' = batchedEvents s ++ events).
  { apply Hcat. congruence. }
  repeat split; auto; try congruence.
  - assert (E : (Z.of_nat (length (batchedEvents s))
                 + Z.of_nat (length events) <=? maxSize s) = false)
      by (apply Z.leb_gt; lia).
    rewrite E in Hcyc.
    assert (Hp : 1 <= ceilDiv (Z.of_nat (length events) - firstCursor s)
                        (maxSize s))
      by (apply ceilDiv_positive; unfold firstCursor; lia).
    lia.
  - rewrite Hm', Hbuf, length_app. lia.
Qed.

(** ** The timeout *)

Lemma cycleBatch_unarmed s :
  negb (isNaN (period s)) && gt0 (period s) = false ->
  nextTimer (cycleBatch getTime s) = nextTimer s.
Proof.
  intros H. destruct s as [m p ds k be bt bk scc tm nt cr fl rc cy].
  cbn [period] in H.
  unfold cycleBatch, emitCore, Date_getTime, setTimeout, clearTimeout.
  destruct bt, scc, be, k; fields; rewrite ?H; reflexivity.
Qed.

Lemma storeEvents_nextTimer s :
  nextTimer (storeEvents JSON_stringify s) = nextTimer s.
Proof. unfold storeEvents. now destruct (durableStore s). Qed.

Lemma storeEvents_period s :
  period (storeEvents JSON_stringify s) = period s.
Proof. unfold storeEvents. now destruct (durableStore s). Qed.

(** C9, as amended: with [maxSize] 3, no periodic timeout and an empty
    buffer, [emit([e1,e2,e3,e4,e5])] forces one cycle, which hands
    [[e1,e2,e3]] to the inner sink and arms no timeout; [[e4,e5]] stay in
    the buffer, and the cycle of a following [flush()] hands them over. *)
Theorem emit_five_into_three (e1 e2 e3 e4 e5 : LogEvent) s
  (k : Sink LogEvent) :
  maxSize s = 3 ->
  negb (isNaN (period s)) && gt0 (period s) = false ->
  batchedEvents s = [] ->
  shouldCycleContinue s = true ->
  innerSink s = Some k ->
  exists s',
    emit JSON_stringify getTime [e1; e2; e3; e4; e5] s
    = Some (s', [e1; e2; e3; e4; e5]) /\
    cycles s' = S (cycles s) /\
    nextTimer s' = nextTimer s /\
    received s' = received s ++ [[e1; e2; e3]] /\
    batchedEvents s' = [e4; e5] /\
    received (fst (flush getTime s'))
    = received s ++ [[e1; e2; e3]; [e4; e5]] /\
    batchedEvents (fst (flush getTime s')) = [] /\
    cycles (fst (flush getTime s')) = S (S (cycles s)).
Proof.
  intros Hm Hp Hb Hrun Hk.
  set (events := [e1; e2; e3; e4; e5]).
  set (s1 := storeEvents JSON_stringify (push (slice events 0 3) s)).
  set (s2 := storeEvents JSON_stringify
               (push (slice events 3 6) (cycleBatch getTime s1))).
  assert (Hm1 : maxSize s1 = 3)
    by (unfold s1; now rewrite storeEvents_maxSize, push_maxSize).
  assert (Hrun1 : shouldCycleContinue s1 = true)
    by (unfold s1; now rewrite storeEvents_shouldCycleContinue).
  assert (Hk1 : innerSink s1 = Some k)
    by (unfold s1; now rewrite storeEvents_innerSink).
  assert (Hb1 : batchedEvents s1 = [e1; e2; e3]).
  { unfold s1. rewrite storeEvents_batchedEvents. cbn. now rewrite Hb. }
  assert (Hh1 : handedOver s1 = [[e1; e2; e3]]).
  { unfold handedOver. now rewrite Hrun1, Hb1, Hk1. }
  assert (Hrun2 : shouldCycleContinue s2 = true).
  { unfold s2. now rewrite storeEvents_shouldCycleContinue,
      push_shouldCycleContinue, cycleBatch_shouldCycleContinue. }
  assert (Hk2 : innerSink s2 = Some k).
  { unfold s2. now rewrite storeEvents_innerSink, push_innerSink,
      cycleBatch_innerSink. }
  assert (Hb2 : batchedEvents s2 = [e4; e5]).
  { unfold s2. rewrite storeEvents_batchedEvents. cbn.
    now rewrite cycleBatch_batchedEvents, Hrun1. }
  assert (Hr2 : received s2 = received s ++ [[e1; e2; e3]]).
  { unfold s2. rewrite storeEvents_received. cbn.
    rewrite cycleBatch_received, Hh1. unfold s1.
    now rewrite storeEvents_received. }
  assert (Hc2 : cycles s2 = S (cycles s)).
  { unfold s2. rewrite storeEvents_cycles. cbn. rewrite cycleBatch_cycles.
    unfold s1. now rewrite storeEvents_cycles. }
  assert (Hh2 : handedOver s2 = [[e4; e5]]).
  { unfold handedOver. now rewrite Hrun2, Hb2, Hk2. }
  exists s2. split.
  { unfold emit, emitFuel. rewrite Hb, Hm.
    change (match emitLoop JSON_stringify getTime 5 events 3 s1 with
            | Some s0 => Some (s0, events)
            | None => None
            end = Some (s2, events)).
    rewrite emitLoop_unfold, Hm1.
    change (3 <? Z.of_nat (length events)) with true. cbv iota.
    change (3 + 3) with 6. fold s2.
    rewrite emitLoop_unfold.
    change (6 <? Z.of_nat (length events)) with false. reflexivity. }
  split; [exact Hc2|]. split.
  { unfold s2. rewrite storeEvents_nextTimer. cbn.
    rewrite cycleBatch_unarmed.
    - unfold s1. now rewrite storeEvents_nextTimer.
    - unfold s1. now rewrite storeEvents_period. }
  split; [exact Hr2|]. split; [exact Hb2|].
  unfold flush. cbn [fst].
  rewrite cycleBatch_received, cycleBatch_batchedEvents, cycleBatch_cycles.
  rewrite Hr2, Hh2, Hrun2, Hc2, <- app_assoc. auto.
Qed.

(** ** Settlement of a dispatch *)

(** C2: a cycle of a running sink with a non-empty buffer hands the
    buffer to the inner sink and leaves a dispatch in flight, made of that
    snapshot and of the key of the moment.  Whenever the promise of that
    dispatch is rejected, in whatever state the sink then is, the events of
    the snapshot are put back, in order, before the events of the buffer of
    that moment, and the store is left as it is: the entry under the key of
    the dispatch is not removed. *)
Theorem rejected_dispatch_is_requeued s0 (k : Sink LogEvent) :
  shouldCycleContinue s0 = true ->
  batchedEvents s0 <> [] ->
  innerSink s0 = Some k ->
  instanceofPromise (sinkEmit k (batchedEvents s0)) = true ->
  let d := {| processEvents := batchedEvents s0;
              previousBatchKey := batchKey s0;
              emitPromiseIsPromise := true |} in
  received (cycleBatch getTime s0) = received s0 ++ [batchedEvents s0] /\
  inFlight (cycleBatch getTime s0) = inFlight s0 ++ [d] /\
  forall s (i : nat),
    nth_error (inFlight s) i = Some d ->
    exists s',
      step JSON_stringify getTime (Settle i Rejected) s = Some s' /\
      batchedEvents s' = batchedEvents s0 ++ batchedEvents s /\
      durableStore s' = durableStore s.
Proof.
  intros Hrun Hne Hk Hp d. split; [|split].
  - rewrite cycleBatch_received. unfold handedOver.
    rewrite Hrun, Hk. now destruct (batchedEvents s0).
  - subst d. destruct s0 as [m p ds k0 be bt bk scc tm nt cr fl rc cy].
    simpl in *. subst.
    unfold cycleBatch, emitCore, Date_getTime, setTimeout, clearTimeout.
    simpl. destruct be as [|e l]; [contradiction|].
    destruct bt; simpl; rewrite Hp;
      destruct (negb (isNaN p) && gt0 p); reflexivity.
  - intros s i Hnth. unfold step. rewrite Hnth. simpl.
    eexists. split; [reflexivity|].
    unfold onRejected. simpl. repeat split; auto.
Qed.

(** ** Halting *)

Lemma stopCycle_shouldCycleContinue s :
  shouldCycleContinue (stopCycle s) = false.
Proof. unfold stopCycle. simpl. now destruct (batchTimeout s). Qed.

(** C4, as amended: once halted, a cycle arms no timeout and returns; it
    changes nothing but the set of armed timeouts (and the count of
    cycles).  [flush()] is such a cycle: it hands nothing to the inner
    sink, and the events in the buffer stay there. *)
Theorem flush_after_stop_is_inert s :
  shouldCycleContinue s = false ->
  nextTimer (cycleBatch getTime s) = nextTimer s /\
  batchTimeout (cycleBatch getTime s) = batchTimeout s /\
  (forall id, In id (timers (cycleBatch getTime s)) -> In id (timers s)) /\
  fst (flush getTime s) = cycleBatch getTime s /\
  received (fst (flush getTime s)) = received s /\
  inFlight (fst (flush getTime s)) = inFlight s /\
  batchedEvents (fst (flush getTime s)) = batchedEvents s /\
  durableStore (fst (flush getTime s)) = durableStore s.
Proof.
  intros Hh. unfold flush. cbn [fst].
  rewrite (cycleBatch_halted s Hh). simpl. repeat split; auto.
  intros id. destruct (batchTimeout s); [|auto].
  intros Hin. now apply in_remove in Hin.
Qed.

(** ** [flush] *)

(** C7: [flush()] runs one cycle and returns a promise.  With an inner
    sink whose [flush()] returns a promise, it is that very promise, so it
    settles when and as the inner sink's does; with no inner sink it is a
    promise already fulfilled. *)
Theorem flush_completion s :
  fst (flush getTime s) = cycleBatch getTime s /\
  cycles (fst (flush getTime s)) = S (cycles s) /\
  (forall (k : Sink LogEvent) (p : promise),
     innerSink s = Some k -> sinkFlush k = APromise p ->
     snd (flush getTime s) = p /\
     forall sinkOutcome,
       settles sinkOutcome (snd (flush getTime s)) = settles sinkOutcome p) /\
  (innerSink s = None ->
   snd (flush getTime s) = PromiseResolve /\
   forall sinkOutcome,
     settles sinkOutcome (snd (flush getTime s)) = Fulfilled).
Proof.
  unfold flush, flushCore. cbn [fst snd].
  rewrite cycleBatch_innerSink, cycleBatch_cycles.
  split; [reflexivity|]. split; [reflexivity|]. split.
  - intros k p Hk Hp. rewrite Hk, Hp. auto.
  - intros Hk. rewrite Hk. auto.
Qed.

(** ** Timeouts over the life of a sink *)

Lemma remove_all_same (a : nat) (l : list nat) :
  (forall x, In x l -> x = a) -> remove Nat.eq_dec a l = [].
Proof.
  induction l as [|x l IH]; intros H; [reflexivity|].
  simpl. destruct (Nat.eq_dec a x) as [_|Hne].
  - apply IH. intros y Hy. apply H. now right.
  - exfalso. apply Hne. symmetry. apply H. now left.
Qed.

Lemma owned_cleared s :
  timersOwned s ->
  match batchTimeout s with
  | Some id => remove Nat.eq_dec id (timers s)
  | None => timers s
  end = [].
Proof.
  unfold timersOwned. intros H. destruct (batchTimeout s) as [id0|].
  - apply remove_all_same. intros x Hx. specialize (H x Hx). congruence.
  - destruct (timers s) as [|x l]; [reflexivity|].
    specialize (H x (or_introl eq_refl)). discriminate.
Qed.

Lemma cycleBatch_timers s :
  timers (cycleBatch getTime s)
  = let cleared := match batchTimeout s with
                   | Some id => remove Nat.eq_dec id (timers s)
                   | None => timers s
                   end in
    if shouldCycleContinue s && (negb (isNaN (period s)) && gt0 (period s))
    then nextTimer s :: cleared else cleared.
Proof.
  destruct s as [m p ds k be bt bk scc tm nt cr fl rc cy].
  unfold cycleBatch, emitCore, Date_getTime, setTimeout, clearTimeout.
  destruct bt, scc, be, k; fields;
    destruct (negb (isNaN p) && gt0 p); reflexivity.
Qed.

Lemma cycleBatch_batchTimeout s :
  batchTimeout (cycleBatch getTime s)
  = if shouldCycleContinue s && (negb (isNaN (period s)) && gt0 (period s))
    then Some (nextTimer s) else batchTimeout s.
Proof.
  destruct s as [m p ds k be bt bk scc tm nt cr fl rc cy].
  unfold cycleBatch, emitCore, Date_getTime, setTimeout, clearTimeout.
  destruct bt, scc, be, k; fields;
    destruct (negb (isNaN p) && gt0 p); reflexivity.
Qed.

Lemma cycleBatch_timersOwned s :
  timersOwned s -> timersOwned (cycleBatch getTime s).
Proof.
  intros H id. rewrite cycleBatch_timers, cycleBatch_batchTimeout.
  cbv zeta. rewrite (owned_cleared s H).
  destruct (shouldCycleContinue s && (negb (isNaN (period s)) && gt0 (period s))).
  - intros [->|[]]. reflexivity.
  - intros [].
Qed.

Lemma storeEvents_push_timersOwned events s :
  timersOwned s -> timersOwned (storeEvents JSON_stringify (push events s)).
Proof.
  unfold timersOwned, storeEvents, push. cbn.
  destruct (durableStore s); cbn; auto.
Qed.

Lemma emitLoop_timersOwned fuel events : forall (cursor : Z) s s',
  timersOwned s ->
  emitLoop JSON_stringify getTime fuel events cursor s = Some s' ->
  timersOwned s'.
Proof.
  induction fuel as [|fuel IH]; intros cursor s s' Ho Hrun.
  - simpl in Hrun.
    destruct (cursor <? Z.of_nat (length events)); [discriminate|].
    now inversion Hrun; subst.
  - rewrite emitLoop_unfold in Hrun.
    destruct (cursor <? Z.of_nat (length events)).
    + apply IH in Hrun; [exact Hrun|].
      apply storeEvents_push_timersOwned. now apply cycleBatch_timersOwned.
    + now inversion Hrun; subst.
Qed.

Lemma emit_timersOwned events s s' (result : list LogEvent) :
  timersOwned s ->
  emit JSON_stringify getTime events s = Some (s', result) ->
  timersOwned s'.
Proof.
  intros Ho. unfold emit, emitFuel.
  destruct (Z.of_nat (length (batchedEvents s)) + Z.of_nat (length events)
            <=? maxSize s).
  - intros H. inversion H; subst. now apply storeEvents_push_timersOwned.
  - destruct emitLoop as [s1|] eqn:Hrun; [|discriminate].
    intros H. inversion H; subst.
    apply emitLoop_timersOwned in Hrun; [exact Hrun|].
    now apply storeEvents_push_timersOwned.
Qed.

Lemma step_timersOwned (a : Action LogEvent) s s' :
  timersOwned s -> step JSON_stringify getTime a s = Some s' ->
  timersOwned s'.
Proof.
  intros Ho. destruct a as [events| | |id|i o]; simpl.
  - destruct emit as [[s1 r]|] eqn:He; [|discriminate].
    intros H. inversion H; subst. eapply emit_timersOwned; eauto.
  - intros H. inversion H; subst. now apply cycleBatch_timersOwned.
  - intros H. inversion H; subst. unfold stopCycle. fields.
    intros id Hin. pose proof (owned_cleared s Ho) as Hc.
    destruct (batchTimeout s); cbn in Hin; rewrite Hc in Hin; destruct Hin.
  - destruct (existsb (Nat.eqb id) (timers s)); [|discriminate].
    intros H. inversion H; subst. apply cycleBatch_timersOwned.
    intros x Hx. cbn in Hx. apply in_remove in Hx. apply Ho. tauto.
  - destruct (nth_error (inFlight s) i) as [d|]; [|discriminate].
    destruct o.
    + intros H. inversion H; subst. unfold onFulfilled. cbn.
      destruct (durableStore s); exact Ho.
    + destruct (emitPromiseIsPromise d); [|discriminate].
      intros H. inversion H; subst. exact Ho.
Qed.

Lemma run_invariant (P : BatchedSink LogEvent -> Prop) :
  (forall a s s', P s -> step JSON_stringify getTime a s = Some s' -> P s') ->
  forall acts s s',
    P s -> run JSON_stringify getTime acts s = Some s' -> P s'.
Proof.
  intros Hstep. induction acts as [|a acts IH]; intros s s' HP Hrun.
  - simpl in Hrun. now inversion Hrun; subst.
  - simpl in Hrun.
    destruct (step JSON_stringify getTime a s) as [s1|] eqn:Hs;
      [|discriminate].
    eapply IH; [|exact Hrun]. eapply Hstep; eauto.
Qed.

Lemma new_timersOwned (sink : option (Sink LogEvent))
  (options : option BatchedSinkOptions) s :
  new JSON_stringify JSON_parse getTime sink options = Some s ->
  timersOwned s.
Proof.
  unfold new.
  destruct (opt_maxSize _) as [m|]; [|discriminate].
  destruct (opt_period _) as [p|]; [|discriminate].
  set (s0 := cycleBatch getTime _).
  assert (Ho : timersOwned s0).
  { apply cycleBatch_timersOwned. intros id []. }
  destruct (durableStore s0) as [st|].
  - destruct rehydrate as [[st' batch]|]; [|discriminate].
    destruct emit as [[s1 r]|] eqn:He; [|discriminate].
    intros H. inversion H; subst.
    eapply emit_timersOwned; [|exact He]. exact Ho.
  - intros H. now inversion H; subst.
Qed.

Lemma cycleBatch_haltedQuiet s :
  haltedQuiet s -> haltedQuiet (cycleBatch getTime s).
Proof.
  intros [Hh Ht]. rewrite (cycleBatch_halted s Hh).
  unfold haltedQuiet. cbn. rewrite Ht. split; [exact Hh|].
  now destruct (batchTimeout s).
Qed.

Lemma storeEvents_push_haltedQuiet events s :
  haltedQuiet s -> haltedQuiet (storeEvents JSON_stringify (push events s)).
Proof.
  unfold haltedQuiet, storeEvents, push. cbn.
  destruct (durableStore s); cbn; auto.
Qed.

Lemma emitLoop_haltedQuiet fuel events : forall (cursor : Z) s s',
  haltedQuiet s ->
  emitLoop JSON_stringify getTime fuel events cursor s = Some s' ->
  haltedQuiet s'.
Proof.
  induction fuel as [|fuel IH]; intros cursor s s' Hq Hrun.
  - simpl in Hrun.
    destruct (cursor <? Z.of_nat (length events)); [discriminate|].
    now inversion Hrun; subst.
  - rewrite emitLoop_unfold in Hrun.
    destruct (cursor <? Z.of_nat (length events)).
    + apply IH in Hrun; [exact Hrun|].
      apply storeEvents_push_haltedQuiet. now apply cycleBatch_haltedQuiet.
    + now inversion Hrun; subst.
Qed.

Lemma step_haltedQuiet (a : Action LogEvent) s s' :
  haltedQuiet s -> step JSON_stringify getTime a s = Some s' ->
  haltedQuiet s' /\ forall id, a <> TimerFires id.
Proof.
  intros Hq. destruct a as [events| | |id|i o]; simpl.
  - unfold emit, emitFuel.
    destruct (Z.of_nat (length (batchedEvents s)) + Z.of_nat (length events)
              <=? maxSize s).
    + intros H. inversion H; subst.
      split; [now apply storeEvents_push_haltedQuiet|discriminate].
    + destruct emitLoop as [s1|] eqn:Hrun; [|discriminate].
      intros H. inversion H; subst. split; [|discriminate].
      apply emitLoop_haltedQuiet in Hrun; [exact Hrun|].
      now apply storeEvents_push_haltedQuiet.
  - intros H. inversion H; subst.
    split; [now apply cycleBatch_haltedQuiet|discriminate].
  - intros H. inversion H; subst. split; [|discriminate].
    destruct Hq as [Hh Ht]. unfold haltedQuiet, stopCycle. fields.
    destruct (batchTimeout s); cbn; rewrite Ht; auto.
  - destruct Hq as [Hh Ht]. rewrite Ht. discriminate.
  - destruct (nth_error (inFlight s) i) as [d|]; [|discriminate].
    destruct o.
    + intros H. inversion H; subst. split; [|discriminate].
      unfold haltedQuiet, onFulfilled. cbn.
      destruct (durableStore s); exact Hq.
    + destruct (emitPromiseIsPromise d); [|discriminate].
      intros H. inversion H; subst. split; [exact Hq|discriminate].
Qed.

Lemma run_haltedQuiet (acts : list (Action LogEvent)) : forall s s',
  haltedQuiet s -> run JSON_stringify getTime acts s = Some s' ->
  haltedQuiet s' /\ forall id, ~ In (TimerFires id) acts.
Proof.
  induction acts as [|a acts IH]; intros s s' Hq Hrun.
  - simpl in Hrun. inversion Hrun; subst. split; [exact Hq|]. intros id [].
  - simpl in Hrun.
    destruct (step JSON_stringify getTime a s) as [s1|] eqn:Hs;
      [|discriminate].
    destruct (step_haltedQuiet a s s1 Hq Hs) as [Hq1 Ha].
    destruct (IH s1 s' Hq1 Hrun) as [Hq' Hno].
    split; [exact Hq'|].
    intros id [Heq|Hin]; [now apply (Ha id)|now apply (Hno id)].
Qed.

Lemma stopCycle_idempotent s : stopCycle (stopCycle s) = stopCycle s.
Proof.
  destruct s as [m p ds k be bt bk scc tm nt cr fl rc cy].
  unfold stopCycle, clearTimeout.
  destruct bt as [id|]; fields; [|reflexivity].
  now rewrite remove_remove_eq.
Qed.

(** C8: halting a halted sink changes nothing.  And in the life of a
    sink, from its construction on and whatever was done to it, once
    [stopCycle] is called no timeout is armed any more: no history of the
    halted sink has a timeout firing in it, the sink stays halted, and a
    timeout cannot fire next. *)
Theorem stop_is_final (sink : option (Sink LogEvent))
  (options : option BatchedSinkOptions) (before : list (Action LogEvent))
  s0 s :
  new JSON_stringify JSON_parse getTime sink options = Some s0 ->
  run JSON_stringify getTime before s0 = Some s ->
  stopCycle (stopCycle s) = stopCycle s /\
  timers (stopCycle s) = [] /\
  forall (after : list (Action LogEvent)) s',
    run JSON_stringify getTime after (stopCycle s) = Some s' ->
    (forall id, ~ In (TimerFires id) after) /\
    shouldCycleContinue s' = false /\
    timers s' = [] /\
    forall id, step JSON_stringify getTime (TimerFires id) s' = None.
Proof.
  intros Hnew Hrun.
  assert (Ho : timersOwned s).
  { eapply (run_invariant timersOwned); [|eapply new_timersOwned|]; eauto.
    intros a x y. apply step_timersOwned. }
  assert (Hq : haltedQuiet (stopCycle s)).
  { split; [apply stopCycle_shouldCycleContinue|].
    pose proof (owned_cleared s Ho) as Hc.
    unfold stopCycle. fields. destruct (batchTimeout s); cbn; exact Hc. }
  split; [apply stopCycle_idempotent|]. split; [apply Hq|].
  intros after s' Hafter.
  destruct (run_haltedQuiet after _ _ Hq Hafter) as [[Hh Ht] Hno].
  repeat split; auto.
  intros id. simpl. now rewrite Ht.
Qed.

(** ** Rehydration *)

Lemma filter_twice {A : Type} (f g : A -> bool) (l : list A) :
  filter g (filter f l) = filter (fun x => f x && g x) l.
Proof.
  induction l as [|x l IH]; [reflexivity|]. simpl.
  destruct (f x); simpl; [destruct (g x)|]; now rewrite IH.
Qed.

Lemma ownEntries_cons (k v : string) (st : Storage) :
  ownEntries ((k, v) :: st)
  = if startsWith durableStorageKey k then (k, v) :: ownEntries st
    else ownEntries st.
Proof. reflexivity. Qed.

Lemma rehydrate_spec (entries : Storage) :
  forall (st : Storage) (acc : list LogEvent) (stored : list (list LogEvent)),
  NoDup (storageKeys entries) ->
  (forall k v, In (k, v) entries -> getItem st k = Some v) ->
  Forall2 (fun kv evs => JSON_parse (snd kv) = Some evs)
    (ownEntries entries) stored ->
  rehydrate JSON_parse (storageKeys entries) st acc
  = Some (filter (fun kv => negb (existsb (String.eqb (fst kv))
                                    (storageKeys (ownEntries entries)))) st,
          acc ++ concat stored).
Proof.
  induction entries as [|[k v] entries IH]; intros st acc stored Hnd Hget Hp.
  - inversion Hp; subst. simpl. rewrite app_nil_r. f_equal. f_equal.
    clear. induction st as [|kv st IHst]; [reflexivity|]. simpl.
    now f_equal.
  - inversion Hnd as [|? ? Hnin Hnd']; subst.
    rewrite ownEntries_cons in *.
    cbn [storageKeys map fst rehydrate].
    destruct (startsWith durableStorageKey k) eqn:Hpre.
    + inversion Hp as [|? evs ? stored' Hparse Hrest]; subst.
      simpl in Hparse.
      rewrite (Hget k v (or_introl eq_refl)), Hparse.
      fold (storageKeys entries).
      rewrite (IH (removeItem st k) (acc ++ evs) stored' Hnd').
      * unfold removeItem. rewrite filter_twice, <- app_assoc.
        f_equal. f_equal. apply filter_ext. intros [k' v']. simpl.
        now rewrite negb_orb.
      * intros k' v' Hin. rewrite getItem_removeItem_other.
        -- apply Hget. now right.
        -- intros ->. apply Hnin. unfold storageKeys.
           apply in_map_iff. now exists (k', v').
      * exact Hrest.
    + fold (storageKeys entries). apply IH; auto.
      intros k' v' Hin. apply Hget. now right.
Qed.

Lemma ownEntries_keys (st : Storage) (kv : string * string) :
  In kv st ->
  existsb (String.eqb (fst kv)) (storageKeys (ownEntries st))
  = startsWith durableStorageKey (fst kv).
Proof.
  intros Hin. destruct (startsWith durableStorageKey (fst kv)) eqn:Hpre.
  - apply existsb_exists. exists (fst kv). split; [|apply String.eqb_refl].
    unfold storageKeys, ownEntries. apply in_map. apply filter_In. auto.
  - destruct (existsb _ _) eqn:Hex; [|reflexivity].
    apply existsb_exists in Hex. destruct Hex as (k & Hk & Heq).
    apply String.eqb_eq in Heq. subst k.
    unfold storageKeys, ownEntries in Hk. apply in_map_iff in Hk.
    destruct Hk as (kv' & Hfst & Hk). apply filter_In in Hk.
    destruct Hk as [_ Hk]. rewrite Hfst in Hk. congruence.
Qed.

Lemma rehydrate_store (st : Storage) (stored : list (list LogEvent)) :
  NoDup (storageKeys st) ->
  Forall2 (fun kv evs => JSON_parse (snd kv) = Some evs)
    (ownEntries st) stored ->
  rehydrate JSON_parse (storageKeys st) st []
  = Some (foreignEntries st, concat stored).
Proof.
  intros Hnd Hp.
  rewrite (rehydrate_spec st st [] stored Hnd);
    [|intros k v; now apply getItem_In|exact Hp].
  apply f_equal. apply f_equal2; [|reflexivity].
  unfold foreignEntries. apply filter_ext_in.
  intros kv Hin. now rewrite ownEntries_keys.
Qed.

Lemma getItem_foreign_own (st : Storage) (key : string) :
  startsWith durableStorageKey key = true ->
  getItem (foreignEntries st) key = None.
Proof.
  intros Hpre. unfold foreignEntries.
  induction st as [|[k v] st IH]; [reflexivity|]. simpl.
  destruct (startsWith durableStorageKey k) eqn:E; simpl; [exact IH|].
  destruct (String.eqb k key) eqn:Ek; [|exact IH].
  apply String.eqb_eq in Ek. congruence.
Qed.

Lemma getItem_foreign_other (st : Storage) (key : string) :
  startsWith durableStorageKey key = false ->
  getItem (foreignEntries st) key = getItem st key.
Proof.
  intros Hpre. unfold foreignEntries.
  induction st as [|[k v] st IH]; [reflexivity|]. simpl.
  destruct (startsWith durableStorageKey k) eqn:E; simpl.
  - destruct (String.eqb k key) eqn:Ek; [|exact IH].
    apply String.eqb_eq in Ek. congruence.
  - now rewrite IH.
Qed.

(** C3: built on a store whose own entries (those whose key starts
    with [durableStorageKey]) all hold text that parses, the constructor
    returns.  Its loop reads every own entry once, in the order of the
    store, and leaves the store without any key of that prefix and with
    its other entries as they were; the events read, entry after entry,
    are then given to [emit] in one call, on the empty buffer, so that
    they end up, each once and in order, in the batches handed to the
    inner sink followed by the buffer. *)
Theorem constructor_recovers_store (sink : option (Sink LogEvent))
  (options : option BatchedSinkOptions) (m : Z) (p : number) (st : Storage)
  (stored : list (list LogEvent)) :
  spread defaultBatchedSinkOptions options
  = {| opt_maxSize := Some m; opt_period := Some p;
       opt_durableStore := Some st |} ->
  0 < m ->
  NoDup (storageKeys st) ->
  Forall2 (fun kv evs => JSON_parse (snd kv) = Some evs)
    (ownEntries st) stored ->
  let s0 := set_durableStore (Some (foreignEntries st))
              (cycleBatch getTime (fresh sink m p (Some st))) in
  rehydrate JSON_parse (storageKeys st) st []
  = Some (foreignEntries st, concat stored) /\
  (forall key, startsWith durableStorageKey key = true ->
     getItem (foreignEntries st) key = None) /\
  (forall key, startsWith durableStorageKey key = false ->
     getItem (foreignEntries st) key = getItem st key) /\
  exists s,
    new JSON_stringify JSON_parse getTime sink options = Some s /\
    emit JSON_stringify getTime (concat stored) s0
    = Some (s, concat stored) /\
    Forall (fun b => Z.of_nat (length b) <= m) (received s) /\
    (sink <> None ->
     concat (received s) ++ batchedEvents s = concat stored).
Proof.
  intros Hopt Hm Hnd Hp s0.
  pose proof (rehydrate_store st stored Hnd Hp) as Hre.
  split; [exact Hre|].
  split; [intros key; apply getItem_foreign_own|].
  split; [intros key; apply getItem_foreign_other|].
  assert (Hm0 : maxSize s0 = m).
  { unfold s0. cbn [maxSize set_durableStore].
    now rewrite cycleBatch_maxSize. }
  assert (Hr0 : received s0 = []).
  { unfold s0. cbn [received set_durableStore].
    now rewrite cycleBatch_received. }
  assert (Hb0 : batchedEvents s0 = []).
  { unfold s0. cbn [batchedEvents set_durableStore].
    now rewrite cycleBatch_batchedEvents. }
  assert (Hk0 : innerSink s0 = sink).
  { unfold s0. cbn [innerSink set_durableStore].
    now rewrite cycleBatch_innerSink. }
  destruct (emit_spec (concat stored) s0) as
    (s & batches & Hrun & Hrec & Hcat & Hall & _); [rewrite Hm0; lia|].
  rewrite Hr0 in Hrec. simpl in Hrec. subst batches.
  exists s. split.
  { unfold new. rewrite Hopt. cbn [opt_maxSize opt_period opt_durableStore].
    rewrite cycleBatch_durableStore. cbn [durableStore fresh].
    rewrite Hre. fold s0. now rewrite Hrun. }
  split; [exact Hrun|]. split.
  - rewrite <- Hm0. apply Hall. right. rewrite Hb0, Hm0. simpl. lia.
  - intros Hsink. rewrite Hcat; [now rewrite Hb0|].
    intros _. now rewrite Hk0.
Qed.

(** ** The entries of the store *)

Lemma storeEvents_mirrored s : mirrored JSON_stringify (storeEvents JSON_stringify s).
Proof.
  unfold mirrored, storeEvents. intros st.
  destruct (durableStore s) as [st0|] eqn:E; cbn.
  - intros H. inversion H; subst. apply getItem_setItem_same.
  - congruence.
Qed.

Lemma emitLoop_mirrored fuel events : forall (cursor : Z) s s',
  mirrored JSON_stringify s ->
  emitLoop JSON_stringify getTime fuel events cursor s = Some s' ->
  mirrored JSON_stringify s'.
Proof.
  induction fuel as [|fuel IH]; intros cursor s s' Hmi Hrun.
  - simpl in Hrun.
    destruct (cursor <? Z.of_nat (length events)); [discriminate|].
    now inversion Hrun; subst.
  - rewrite emitLoop_unfold in Hrun.
    destruct (cursor <? Z.of_nat (length events)).
    + apply IH in Hrun; [exact Hrun|]. apply storeEvents_mirrored.
    + now inversion Hrun; subst.
Qed.

Lemma emit_mirrored events s s' (result : list LogEvent) :
  emit JSON_stringify getTime events s = Some (s', result) ->
  mirrored JSON_stringify s'.
Proof.
  unfold emit, emitFuel.
  destruct (Z.of_nat (length (batchedEvents s)) + Z.of_nat (length events)
            <=? maxSize s).
  - intros H. inversion H; subst. apply storeEvents_mirrored.
  - destruct emitLoop as [s1|] eqn:Hrun; [|discriminate].
    intros H. inversion H; subst.
    apply emitLoop_mirrored in Hrun; [exact Hrun|]. apply storeEvents_mirrored.
Qed.

Lemma storeGrows_refl s : storeGrows s s.
Proof. unfold storeGrows. destruct (durableStore s); auto. Qed.

Lemma storeGrows_trans s1 s2 s3 :
  storeGrows s1 s2 -> storeGrows s2 s3 -> storeGrows s1 s3.
Proof.
  unfold storeGrows.
  destruct (durableStore s1), (durableStore s2), (durableStore s3);
    try tauto; auto.
Qed.

Lemma storeEvents_push_grows events s :
  storeGrows s (storeEvents JSON_stringify (push events s)).
Proof.
  unfold storeGrows, storeEvents, push. cbn.
  destruct (durableStore s) eqn:E; cbn; rewrite ?E; cbn; auto.
  intros key. apply getItem_setItem_stays.
Qed.

Lemma cycleBatch_grows s : storeGrows s (cycleBatch getTime s).
Proof.
  unfold storeGrows. rewrite cycleBatch_durableStore.
  destruct (durableStore s); auto.
Qed.

Lemma emitLoop_grows fuel events : forall (cursor : Z) s s',
  emitLoop JSON_stringify getTime fuel events cursor s = Some s' ->
  storeGrows s s'.
Proof.
  induction fuel as [|fuel IH]; intros cursor s s' Hrun.
  - simpl in Hrun.
    destruct (cursor <? Z.of_nat (length events)); [discriminate|].
    inversion Hrun; subst. apply storeGrows_refl.
  - rewrite emitLoop_unfold in Hrun.
    destruct (cursor <? Z.of_nat (length events)).
    + apply IH in Hrun.
      eapply storeGrows_trans; [apply cycleBatch_grows|].
      eapply storeGrows_trans; [apply storeEvents_push_grows|exact Hrun].
    + inversion Hrun; subst. apply storeGrows_refl.
Qed.

Lemma emit_grows events s s' (result : list LogEvent) :
  emit JSON_stringify getTime events s = Some (s', result) ->
  storeGrows s s'.
Proof.
  unfold emit, emitFuel.
  destruct (Z.of_nat (length (batchedEvents s)) + Z.of_nat (length events)
            <=? maxSize s).
  - intros H. inversion H; subst. apply storeEvents_push_grows.
  - destruct emitLoop as [s1|] eqn:Hrun; [|discriminate].
    intros H. inversion H; subst.
    eapply storeGrows_trans; [apply storeEvents_push_grows|].
    eapply emitLoop_grows; eauto.
Qed.

Lemma storeEvents_push_storeOk events s :
  storeOk s -> storeOk (storeEvents JSON_stringify (push events s)).
Proof.
  unfold storeOk, storeEvents, push. cbn.
  destruct (durableStore s) eqn:E; cbn; rewrite ?E; cbn; auto.
  apply NoDup_setItem.
Qed.

Lemma cycleBatch_storeOk s : storeOk s -> storeOk (cycleBatch getTime s).
Proof. unfold storeOk. now rewrite cycleBatch_durableStore. Qed.

Lemma emitLoop_storeOk fuel events : forall (cursor : Z) s s',
  storeOk s ->
  emitLoop JSON_stringify getTime fuel events cursor s = Some s' ->
  storeOk s'.
Proof.
  induction fuel as [|fuel IH]; intros cursor s s' Hok Hrun.
  - simpl in Hrun.
    destruct (cursor <? Z.of_nat (length events)); [discriminate|].
    now inversion Hrun; subst.
  - rewrite emitLoop_unfold in Hrun.
    destruct (cursor <? Z.of_nat (length events)).
    + apply IH in Hrun; [exact Hrun|].
      apply storeEvents_push_storeOk. now apply cycleBatch_storeOk.
    + now inversion Hrun; subst.
Qed.

Lemma emit_storeOk events s s' (result : list LogEvent) :
  storeOk s ->
  emit JSON_stringify getTime events s = Some (s', result) ->
  storeOk s'.
Proof.
  intros Hok. unfold emit, emitFuel.
  destruct (Z.of_nat (length (batchedEvents s)) + Z.of_nat (length events)
            <=? maxSize s).
  - intros H. inversion H; subst. now apply storeEvents_push_storeOk.
  - destruct emitLoop as [s1|] eqn:Hrun; [|discriminate].
    intros H. inversion H; subst.
    apply emitLoop_storeOk in Hrun; [exact Hrun|].
    now apply storeEvents_push_storeOk.
Qed.

Lemma step_storeOk (a : Action LogEvent) s s' :
  storeOk s -> step JSON_stringify getTime a s = Some s' -> storeOk s'.
Proof.
  intros Hok. destruct a as [events| | |id|i o]; simpl.
  - destruct emit as [[s1 r]|] eqn:He; [|discriminate].
    intros H. inversion H; subst. eapply emit_storeOk; eauto.
  - intros H. inversion H; subst. now apply cycleBatch_storeOk.
  - intros H. inversion H; subst. unfold storeOk, stopCycle. fields.
    destruct (batchTimeout s); exact Hok.
  - destruct (existsb (Nat.eqb id) (timers s)); [|discriminate].
    intros H. inversion H; subst. apply cycleBatch_storeOk. exact Hok.
  - destruct (nth_error (inFlight s) i) as [d|]; [|discriminate].
    destruct o.
    + intros H. inversion H; subst. unfold storeOk, onFulfilled in *. cbn.
      destruct (durableStore s) eqn:E; cbn; rewrite ?E; auto.
      now apply NoDup_filter_keys.
    + destruct (emitPromiseIsPromise d); [|discriminate].
      intros H. inversion H; subst. exact Hok.
Qed.

Lemma rehydrate_storeOk (keys : list string) :
  forall (st st' : Storage) (acc batch : list LogEvent),
  NoDup (storageKeys st) ->
  rehydrate JSON_parse keys st acc = Some (st', batch) ->
  NoDup (storageKeys st').
Proof.
  induction keys as [|key keys IH]; intros st st' acc batch Hnd Hre.
  - simpl in Hre. now inversion Hre; subst.
  - simpl in Hre.
    destruct (startsWith durableStorageKey key); [|eauto].
    destruct (getItem st key) as [text|]; [|eauto].
    destruct (JSON_parse text) as [evs|]; [|discriminate].
    eapply IH; [|exact Hre]. now apply NoDup_filter_keys.
Qed.

Lemma new_storeOk (sink : option (Sink LogEvent))
  (options : option BatchedSinkOptions) s :
  (forall st,
     opt_durableStore (spread defaultBatchedSinkOptions options) = Some st ->
     NoDup (storageKeys st)) ->
  new JSON_stringify JSON_parse getTime sink options = Some s ->
  storeOk s.
Proof.
  intros Hnd. unfold new.
  destruct (opt_maxSize _) as [m|]; [|discriminate].
  destruct (opt_period _) as [p|]; [|discriminate].
  rewrite cycleBatch_durableStore. cbn [durableStore fresh].
  destruct (opt_durableStore _) as [st|] eqn:E.
  - destruct rehydrate as [[st' batch]|] eqn:Hre; [|discriminate].
    destruct emit as [[s1 r]|] eqn:He; [|discriminate].
    intros H. inversion H; subst.
    eapply emit_storeOk; [|exact He].
    unfold storeOk. cbn. eapply rehydrate_storeOk; [|exact Hre]. auto.
  - intros H. inversion H; subst. unfold storeOk.
    rewrite cycleBatch_durableStore. cbn. exact I.
Qed.

(** A step either removes no key from the store, or is the fulfilment of
    a dispatch and removes the key of that dispatch. *)
Lemma step_store (a : Action LogEvent) s s' :
  step JSON_stringify getTime a s = Some s' ->
  storeGrows s s' \/
  exists i d,
    a = Settle i Fulfilled /\ nth_error (inFlight s) i = Some d /\
    forall st, durableStore s = Some st ->
      durableStore s' = Some (removeItem st (previousBatchKey d)).
Proof.
  destruct a as [events| | |id|i o]; simpl.
  - destruct emit as [[s1 r]|] eqn:He; [|discriminate].
    intros H. inversion H; subst. left. eapply emit_grows; eauto.
  - intros H. inversion H; subst. left. apply cycleBatch_grows.
  - intros H. inversion H; subst. left. unfold storeGrows, stopCycle. fields.
    destruct (batchTimeout s); cbn; destruct (durableStore s); auto.
  - destruct (existsb (Nat.eqb id) (timers s)); [|discriminate].
    intros H. inversion H; subst. left.
    unfold storeGrows. rewrite cycleBatch_durableStore. cbn.
    destruct (durableStore s); auto.
  - destruct (nth_error (inFlight s) i) as [d|] eqn:Hn; [|discriminate].
    destruct o.
    + intros H. inversion H; subst. right. exists i, d.
      split; [reflexivity|]. split; [exact Hn|].
      intros st Hst. unfold onFulfilled. cbn. now rewrite Hst.
    + destruct (emitPromiseIsPromise d); [|discriminate].
      intros H. inversion H; subst. left.
      unfold storeGrows, onRejected. cbn. destruct (durableStore s); auto.
Qed.

(** C5, as amended: a sink has one buffer and one key.  Over its life,
    from its construction on a store without repeated keys, the store
    never holds two entries under one key; whenever [emit] returns, the
    entry under the key of the moment holds the buffer of the moment; and
    an entry leaves the store only when a dispatch made under its key is
    fulfilled, so the entry of a dispatch that is rejected stays. *)
Theorem durable_entries_lifecycle (sink : option (Sink LogEvent))
  (options : option BatchedSinkOptions) (acts : list (Action LogEvent))
  s0 s :
  (forall st,
     opt_durableStore (spread defaultBatchedSinkOptions options) = Some st ->
     NoDup (storageKeys st)) ->
  new JSON_stringify JSON_parse getTime sink options = Some s0 ->
  run JSON_stringify getTime acts s0 = Some s ->
  (forall st, durableStore s = Some st -> NoDup (storageKeys st)) /\
  (forall events s' result st',
     emit JSON_stringify getTime events s = Some (s', result) ->
     durableStore s' = Some st' ->
     getItem st' (batchKey s') = Some (JSON_stringify (batchedEvents s'))) /\
  (forall a s' st st' key,
     step JSON_stringify getTime a s = Some s' ->
     durableStore s = Some st -> durableStore s' = Some st' ->
     getItem st key <> None -> getItem st' key = None ->
     exists i d,
       a = Settle i Fulfilled /\ nth_error (inFlight s) i = Some d /\
       previousBatchKey d = key).
Proof.
  intros Hnd Hnew Hrun. split; [|split].
  - assert (Hok : storeOk s).
    { eapply (run_invariant storeOk); [|eapply new_storeOk|]; eauto.
      intros a x y. apply step_storeOk. }
    intros st Hst. unfold storeOk in Hok. now rewrite Hst in Hok.
  - intros events s' result st' He Hst.
    apply emit_mirrored in He. now apply He.
  - intros a s' st st' key Hstep Hst Hst' Hin Hout.
    destruct (step_store a s s' Hstep) as [Hg|(i & d & Ha & Hn & Hrm)].
    + unfold storeGrows in Hg. rewrite Hst, Hst' in Hg.
      exfalso. now apply (Hg key).
    + exists i, d. split; [exact Ha|]. split; [exact Hn|].
      rewrite (Hrm st Hst) in Hst'. inversion Hst'; subst.
      destruct (string_dec (previousBatchKey d) key) as [Heq|Hne];
        [exact Heq|].
      rewrite getItem_removeItem_other in Hout by exact Hne. contradiction.
Qed.

(** * Further properties *)

(** ** Keys *)

Lemma prefix_append (p x : string) : String.prefix p (p ++ x)%string = true.
Proof.
  induction p as [|c p IH]; simpl; [now destruct x|].
  destruct (ascii_dec c c) as [_|Hne]; [exact IH|now elim Hne].
Qed.

Lemma append_inj (p a b : string) : (p ++ a = p ++ b)%string -> a = b.
Proof.
  induction p as [|c p IH]; simpl; intros H; [exact H|].
  inversion H. auto.
Qed.

Lemma numberToString_inj (a b : Z) :
  numberToString a = numberToString b -> a = b.
Proof.
  unfold numberToString. intros H. apply DecimalZ.to_int_inj.
  assert (Hn : forall z, Z.to_int z <> Decimal.Pos Decimal.Nil /\
                         Z.to_int z <> Decimal.Neg Decimal.Nil).
  { intros [|q|q]; simpl; split; try discriminate;
      intros [= E]; now apply (DecimalPos.Unsigned.to_uint_nonnil q). }
  assert (E : NilZero.int_of_string (NilZero.string_of_int (Z.to_int a))
              = NilZero.int_of_string (NilZero.string_of_int (Z.to_int b)))
    by now rewrite H.
  rewrite !NilZero.isi in E by apply Hn. now inversion E.
Qed.

Lemma keyAt_own (now : Z) : startsWith durableStorageKey (keyAt now) = true.
Proof. apply prefix_append. Qed.

Lemma keyAt_inj (a b : Z) : keyAt a = keyAt b -> a = b.
Proof.
  unfold keyAt. intros H. apply append_inj in H.
  apply (append_inj "-") in H. now apply numberToString_inj.
Qed.

Lemma cycleBatch_batchKey s :
  batchKey (cycleBatch getTime s)
  = if shouldCycleContinue s then keyAt (getTime (clockReads s))
    else batchKey s.
Proof. cycle_cases s. Qed.

Lemma cycleBatch_clockReads s :
  clockReads (cycleBatch getTime s)
  = if shouldCycleContinue s then S (clockReads s) else clockReads s.
Proof. cycle_cases s. Qed.

(** ** Emits that fit *)

Lemma emit_fits events s :
  Z.of_nat (length (batchedEvents s)) + Z.of_nat (length events) <= maxSize s ->
  emit JSON_stringify getTime events s
  = Some (storeEvents JSON_stringify (push events s), events).
Proof.
  intros H. unfold emit, emitFuel.
  apply Z.leb_le in H. now rewrite H.
Qed.

Lemma slice_nil {A : Type} (first last : Z) : slice (@nil A) first last = [].
Proof. unfold slice. now rewrite skipn_nil, firstn_nil. Qed.

Lemma storeEvents_inFlight s :
  inFlight (storeEvents JSON_stringify s) = inFlight s.
Proof. unfold storeEvents. now destruct (durableStore s). Qed.

Lemma storeEvents_batchKey s :
  batchKey (storeEvents JSON_stringify s) = batchKey s.
Proof. unfold storeEvents. now destruct (durableStore s). Qed.

Lemma emit_nil s :
  emit JSON_stringify getTime [] s
  = Some (storeEvents JSON_stringify (push [] s), []).
Proof.
  unfold emit, emitFuel. cbn [length emitLoop Z.of_nat].
  destruct (Z.of_nat (length (batchedEvents s)) + 0 <=? maxSize s);
    [reflexivity|].
  rewrite slice_nil.
  destruct (maxSize s - Z.of_nat (length (batchedEvents s)) <? 0) eqn:E;
    [reflexivity|].
  apply Z.ltb_ge in E.
  destruct (maxSize s - Z.of_nat (length (batchedEvents s)) <? 0) eqn:E';
    [apply Z.ltb_lt in E'; lia|reflexivity].
Qed.

(** X1: [emit([])] returns whatever [maxSize] is, even on a buffer
    longer than [maxSize]: it forces no cycle, hands nothing to the inner
    sink and leaves the buffer and the key as they are; all it does is
    write the buffer to the store again. *)
Theorem emit_nothing s :
  exists s',
    emit JSON_stringify getTime [] s = Some (s', []) /\
    batchedEvents s' = batchedEvents s /\
    cycles s' = cycles s /\
    received s' = received s /\
    inFlight s' = inFlight s /\
    batchKey s' = batchKey s /\
    forall st', durableStore s' = Some st' ->
      getItem st' (batchKey s) = Some (JSON_stringify (batchedEvents s)).
Proof.
  exists (storeEvents JSON_stringify (push [] s)).
  split; [apply emit_nil|].
  rewrite storeEvents_batchedEvents, storeEvents_cycles,
    storeEvents_received, storeEvents_inFlight, storeEvents_batchKey.
  cbn. rewrite app_nil_r. repeat split.
  intros st' Hst.
  pose proof (storeEvents_mirrored (push [] s) st' Hst) as Hmi.
  rewrite storeEvents_batchKey, storeEvents_batchedEvents in Hmi.
  cbn in Hmi. now rewrite app_nil_r in Hmi.
Qed.

Lemma emits_fit (batches : list (list LogEvent)) : forall s,
  Z.of_nat (length (batchedEvents s)) + Z.of_nat (length (concat batches))
  <= maxSize s ->
  exists s',
    run JSON_stringify getTime (map Emit batches) s = Some s' /\
    batchedEvents s' = batchedEvents s ++ concat batches /\
    received s' = received s /\ cycles s' = cycles s /\
    inFlight s' = inFlight s /\ batchKey s' = batchKey s /\
    shouldCycleContinue s' = shouldCycleContinue s /\
    innerSink s' = innerSink s.
Proof.
  induction batches as [|events batches IH]; intros s Hfit.
  - exists s. simpl. rewrite app_nil_r. repeat split; reflexivity.
  - simpl in Hfit. rewrite length_app in Hfit.
    cbn [map run step]. rewrite emit_fits by lia.
    destruct (IH (storeEvents JSON_stringify (push events s))) as
      (s' & Hrun & Hb & Hr & Hc & Hf & Hk & Hs & Hi).
    { rewrite storeEvents_maxSize, storeEvents_batchedEvents. cbn.
      rewrite length_app. lia. }
    exists s'. split; [exact Hrun|].
    rewrite Hb, Hr, Hc, Hf, Hk, Hs, Hi.
    rewrite storeEvents_batchedEvents, storeEvents_received,
      storeEvents_cycles, storeEvents_inFlight, storeEvents_batchKey,
      storeEvents_shouldCycleContinue, storeEvents_innerSink.
    cbn. rewrite <- app_assoc. repeat split; reflexivity.
Qed.

(** X2: calls of [emit] whose events, together with the buffer, fit in
    [maxSize] never force a cycle: the events pile up in the buffer in the
    order of the calls and nothing is handed to the inner sink; a [flush()]
    of the running sink then hands them all over as one batch. *)
Theorem emits_within_capacity (batches : list (list LogEvent)) s
  (k : Sink LogEvent) :
  Z.of_nat (length (batchedEvents s)) + Z.of_nat (length (concat batches))
  <= maxSize s ->
  shouldCycleContinue s = true ->
  innerSink s = Some k ->
  batchedEvents s ++ concat batches <> [] ->
  exists s',
    run JSON_stringify getTime (map Emit batches) s = Some s' /\
    batchedEvents s' = batchedEvents s ++ concat batches /\
    received s' = received s /\
    cycles s' = cycles s /\
    received (fst (flush getTime s'))
    = received s ++ [batchedEvents s ++ concat batches] /\
    batchedEvents (fst (flush getTime s')) = [].
Proof.
  intros Hfit Hrun Hk Hne.
  destruct (emits_fit batches s Hfit) as
    (s' & Hr & Hb & Hrec & Hc & _ & _ & Hs & Hi).
  exists s'. repeat (split; [assumption|]).
  unfold flush. cbn [fst].
  rewrite cycleBatch_received, cycleBatch_batchedEvents.
  unfold handedOver. rewrite Hs, Hrun, Hi, Hk, Hb, Hrec.
  destruct (batchedEvents s ++ concat batches); [contradiction|].
  split; reflexivity.
Qed.

(** ** What a history keeps *)

Lemma emitLoop_frames fuel events : forall (cursor : Z) s s',
  emitLoop JSON_stringify getTime fuel events cursor s = Some s' ->
  maxSize s' = maxSize s /\ innerSink s' = innerSink s /\
  period s' = period s /\ shouldCycleContinue s' = shouldCycleContinue s.
Proof.
  induction fuel as [|fuel IH]; intros cursor s s' Hrun.
  - simpl in Hrun.
    destruct (cursor <? Z.of_nat (length events)); [discriminate|].
    inversion Hrun; subst; auto.
  - rewrite emitLoop_unfold in Hrun.
    destruct (cursor <? Z.of_nat (length events)).
    + apply IH in Hrun.
      rewrite storeEvents_maxSize, storeEvents_innerSink, storeEvents_period,
        storeEvents_shouldCycleContinue, push_maxSize, push_innerSink,
        push_shouldCycleContinue in Hrun.
      cbn [period push set_batchedEvents] in Hrun.
      now rewrite cycleBatch_maxSize, cycleBatch_innerSink, cycleBatch_period,
        cycleBatch_shouldCycleContinue in Hrun.
    + inversion Hrun; subst; auto.
Qed.

Lemma emit_frames events s s' (result : list LogEvent) :
  emit JSON_stringify getTime events s = Some (s', result) ->
  maxSize s' = maxSize s /\ innerSink s' = innerSink s /\
  period s' = period s /\ shouldCycleContinue s' = shouldCycleContinue s.
Proof.
  unfold emit, emitFuel.
  destruct (Z.of_nat (length (batchedEvents s)) + Z.of_nat (length events)
            <=? maxSize s).
  - intros H. inversion H; subst.
    now rewrite storeEvents_maxSize, storeEvents_innerSink,
      storeEvents_period, storeEvents_shouldCycleContinue.
  - destruct emitLoop as [s1|] eqn:Hrun; [|discriminate].
    intros H. inversion H; subst. apply emitLoop_frames in Hrun.
    now rewrite storeEvents_maxSize, storeEvents_innerSink,
      storeEvents_period, storeEvents_shouldCycleContinue in Hrun.
Qed.

Lemma step_frames (a : Action LogEvent) s s' :
  step JSON_stringify getTime a s = Some s' ->
  maxSize s' = maxSize s /\ innerSink s' = innerSink s /\
  period s' = period s.
Proof.
  destruct a as [events| | |id|i o]; simpl.
  - destruct emit as [[s1 r]|] eqn:He; [|discriminate].
    intros H. inversion H; subst. apply emit_frames in He.
    destruct He as (Hm & Hi & Hp & _). auto.
  - intros H. inversion H; subst.
    now rewrite cycleBatch_maxSize, cycleBatch_innerSink, cycleBatch_period.
  - intros H. inversion H; subst. unfold stopCycle. fields.
    now destruct (batchTimeout s).
  - destruct (existsb (Nat.eqb id) (timers s)); [|discriminate].
    intros H. inversion H; subst.
    now rewrite cycleBatch_maxSize, cycleBatch_innerSink, cycleBatch_period.
  - destruct (nth_error (inFlight s) i) as [d|]; [|discriminate].
    destruct o.
    + intros H. inversion H; subst. unfold onFulfilled. cbn.
      now destruct (durableStore s).
    + destruct (emitPromiseIsPromise d); [|discriminate].
      intros H. inversion H; subst. auto.
Qed.

Lemma emit_conserves events s s' (result : list LogEvent) :
  (shouldCycleContinue s = true -> innerSink s <> None) ->
  emit JSON_stringify getTime events s = Some (s', result) ->
  concat (received s') ++ batchedEvents s'
  = concat (received s) ++ batchedEvents s ++ events.
Proof.
  intros Hk He.
  destruct (Z_lt_le_dec 0 (maxSize s)) as [Hm|Hm].
  - destruct (emit_spec events s Hm) as
      (s'' & batches & Hrun & Hrec & Hcat & _).
    rewrite Hrun in He. inversion He; subst.
    rewrite Hrec, concat_app, <- app_assoc. f_equal. now apply Hcat.
  - destruct events as [|e events].
    + rewrite emit_nil in He. inversion He; subst.
      rewrite storeEvents_batchedEvents, storeEvents_received. cbn.
      now rewrite !app_nil_r.
    + unfold emit in He. rewrite emit_never_returns in He; easy.
Qed.

Lemma cycleBatch_conserves s :
  (shouldCycleContinue s = true -> innerSink s <> None) ->
  concat (received (cycleBatch getTime s)) ++ batchedEvents (cycleBatch getTime s)
  = concat (received s) ++ batchedEvents s.
Proof.
  intros Hk. rewrite cycleBatch_received, concat_app, <- app_assoc.
  f_equal. now apply handedOver_conserves.
Qed.

Lemma step_conserves (a : Action LogEvent) s s' :
  innerSink s <> None ->
  isRejection a = false ->
  step JSON_stringify getTime a s = Some s' ->
  concat (received s') ++ batchedEvents s'
  = concat (received s) ++ batchedEvents s ++ emitted [a].
Proof.
  intros Hk Hrej. destruct a as [events| | |id|i o]; simpl.
  - destruct emit as [[s1 r]|] eqn:He; [|discriminate].
    intros H. inversion H; subst. rewrite app_nil_r.
    eapply emit_conserves; eauto.
  - intros H. inversion H; subst. rewrite app_nil_r.
    now apply cycleBatch_conserves.
  - intros H. inversion H; subst. rewrite app_nil_r.
    unfold stopCycle. fields. now destruct (batchTimeout s).
  - destruct (existsb (Nat.eqb id) (timers s)); [|discriminate].
    intros H. inversion H; subst. rewrite app_nil_r.
    now rewrite cycleBatch_conserves.
  - destruct (nth_error (inFlight s) i) as [d|]; [|discriminate].
    destruct o; [|discriminate].
    intros H. inversion H; subst. rewrite app_nil_r.
    unfold onFulfilled. cbn. now destruct (durableStore s).
Qed.

(** X3: as long as no dispatch is rejected, no event is lost, repeated
    or reordered by a sink that has an inner sink: after any history of
    calls, timeouts and fulfilments, the batches the inner sink received, in
    order, followed by the buffer, are what they were at the start followed
    by the events of the [emit] calls, in the order of the calls. *)
Theorem run_conserves_events (acts : list (Action LogEvent)) : forall s s',
  innerSink s <> None ->
  (forall i, ~ In (Settle i Rejected) acts) ->
  run JSON_stringify getTime acts s = Some s' ->
  concat (received s') ++ batchedEvents s'
  = concat (received s) ++ batchedEvents s ++ emitted acts.
Proof.
  induction acts as [|a acts IH]; intros s s' Hk Hno Hrun.
  - simpl in Hrun. inversion Hrun; subst. simpl. now rewrite app_nil_r.
  - simpl in Hrun.
    destruct (step JSON_stringify getTime a s) as [s1|] eqn:Hs;
      [|discriminate].
    assert (Hrej : isRejection a = false).
    { destruct a as [| | | |i o]; try reflexivity.
      destruct o; [reflexivity|]. exfalso. apply (Hno i). now left. }
    pose proof (step_conserves a s s1 Hk Hrej Hs) as H1.
    destruct (step_frames a s s1 Hs) as (_ & Hi & _).
    rewrite (IH s1 s'); [| congruence | | exact Hrun].
    + rewrite app_assoc, H1. unfold emitted. cbn [flat_map].
      now rewrite app_nil_r, <- !app_assoc.
    + intros i Hin. apply (Hno i). now right.
Qed.

(** ** Batches *)

Lemma handedOver_nonempty s : Forall (fun b => b <> []) (handedOver s).
Proof.
  unfold handedOver. destruct (shouldCycleContinue s); [|constructor].
  destruct (batchedEvents s) eqn:E; [constructor|].
  destruct (innerSink s); repeat constructor. discriminate.
Qed.

Lemma emitLoop_nonempty fuel events : forall (cursor : Z) s s',
  Forall (fun b => b <> []) (received s) ->
  emitLoop JSON_stringify getTime fuel events cursor s = Some s' ->
  Forall (fun b => b <> []) (received s').
Proof.
  induction fuel as [|fuel IH]; intros cursor s s' Hne Hrun.
  - simpl in Hrun.
    destruct (cursor <? Z.of_nat (length events)); [discriminate|].
    now inversion Hrun; subst.
  - rewrite emitLoop_unfold in Hrun.
    destruct (cursor <? Z.of_nat (length events)).
    + apply IH in Hrun; [exact Hrun|].
      rewrite storeEvents_received. cbn. rewrite cycleBatch_received.
      apply Forall_app. split; [exact Hne|apply handedOver_nonempty].
    + now inversion Hrun; subst.
Qed.

Lemma step_nonempty (a : Action LogEvent) s s' :
  Forall (fun b => b <> []) (received s) ->
  step JSON_stringify getTime a s = Some s' ->
  Forall (fun b => b <> []) (received s').
Proof.
  intros Hne. destruct a as [events| | |id|i o]; simpl.
  - unfold emit, emitFuel.
    destruct (Z.of_nat (length (batchedEvents s)) + Z.of_nat (length events)
              <=? maxSize s).
    + intros H. inversion H; subst. now rewrite storeEvents_received.
    + destruct emitLoop as [s1|] eqn:Hrun; [|discriminate].
      intros H. inversion H; subst.
      apply emitLoop_nonempty in Hrun; [exact Hrun|].
      now rewrite storeEvents_received.
  - intros H. inversion H; subst. rewrite cycleBatch_received.
    apply Forall_app. split; [exact Hne|apply handedOver_nonempty].
  - intros H. inversion H; subst. unfold stopCycle. fields.
    now destruct (batchTimeout s).
  - destruct (existsb (Nat.eqb id) (timers s)); [|discriminate].
    intros H. inversion H; subst. rewrite cycleBatch_received.
    apply Forall_app. split; [exact Hne|apply handedOver_nonempty].
  - destruct (nth_error (inFlight s) i) as [d|]; [|discriminate].
    destruct o.
    + intros H. inversion H; subst. unfold onFulfilled. cbn.
      now destruct (durableStore s).
    + destruct (emitPromiseIsPromise d); [|discriminate].
      intros H. inversion H; subst. exact Hne.
Qed.

Lemma new_received_nonempty (sink : option (Sink LogEvent))
  (options : option BatchedSinkOptions) s :
  new JSON_stringify JSON_parse getTime sink options = Some s ->
  Forall (fun b => b <> []) (received s).
Proof.
  unfold new.
  destruct (opt_maxSize _) as [m|]; [|discriminate].
  destruct (opt_period _) as [p|]; [|discriminate].
  set (s0 := cycleBatch getTime _).
  assert (H0 : Forall (fun b : list LogEvent => b <> []) (received s0)).
  { unfold s0. rewrite cycleBatch_received. constructor. }
  destruct (durableStore s0) as [st|].
  - destruct rehydrate as [[st' batch]|]; [|discriminate].
    destruct emit as [[s1 r]|] eqn:He; [|discriminate].
    intros H. inversion H; subst.
    apply (step_nonempty (Emit batch) (set_durableStore (Some st') s0));
      [exact H0|]. simpl. now rewrite He.
  - intros H. now inversion H; subst.
Qed.

(** X4: the inner sink is never handed an empty batch: whatever is done
    to a sink after its construction, rejections included, every batch its
    inner sink received holds at least one event. *)
Theorem no_empty_batch (sink : option (Sink LogEvent))
  (options : option BatchedSinkOptions) (acts : list (Action LogEvent))
  s0 s :
  new JSON_stringify JSON_parse getTime sink options = Some s0 ->
  run JSON_stringify getTime acts s0 = Some s ->
  Forall (fun b => b <> []) (received s).
Proof.
  intros Hnew Hrun.
  eapply (run_invariant (fun x => Forall (fun b => b <> []) (received x)));
    [|eapply new_received_nonempty; eauto|exact Hrun].
  intros a x y. apply step_nonempty.
Qed.

Lemma emitLoop_bounded fuel events : forall (cursor : Z) s s',
  0 < maxSize s -> 0 <= cursor ->
  shouldCycleContinue s = false \/
  Z.of_nat (length (batchedEvents s)) <= maxSize s ->
  emitLoop JSON_stringify getTime fuel events cursor s = Some s' ->
  shouldCycleContinue s' = false \/
  Z.of_nat (length (batchedEvents s')) <= maxSize s'.
Proof.
  induction fuel as [|fuel IH]; intros cursor s s' Hm Hc Hb Hrun.
  - simpl in Hrun.
    destruct (cursor <? Z.of_nat (length events)); [discriminate|].
    now inversion Hrun; subst.
  - rewrite emitLoop_unfold in Hrun.
    destruct (cursor <? Z.of_nat (length events)).
    + apply IH in Hrun; [exact Hrun| | |].
      * now rewrite storeEvents_maxSize, push_maxSize, cycleBatch_maxSize.
      * lia.
      * rewrite storeEvents_shouldCycleContinue, push_shouldCycleContinue,
          cycleBatch_shouldCycleContinue, storeEvents_batchedEvents,
          storeEvents_maxSize, push_maxSize, cycleBatch_maxSize.
        cbn. rewrite cycleBatch_batchedEvents.
        destruct (shouldCycleContinue s); [right|now left].
        apply slice_window_length; lia.
    + now inversion Hrun; subst.
Qed.

Lemma emit_withinCapacity events s s' (result : list LogEvent) :
  0 < maxSize s -> withinCapacity s ->
  emit JSON_stringify getTime events s = Some (s', result) ->
  withinCapacity s'.
Proof.
  intros Hm [Hb Hr] He. split.
  - revert He. unfold emit, emitFuel.
    destruct (Z.of_nat (length (batchedEvents s)) + Z.of_nat (length events)
              <=? maxSize s) eqn:E.
    + intros H. inversion H; subst. right. apply Z.leb_le in E.
      rewrite storeEvents_batchedEvents, storeEvents_maxSize. cbn.
      rewrite length_app. lia.
    + destruct emitLoop as [s1|] eqn:Hrun; [|discriminate].
      intros H. inversion H; subst.
      apply emitLoop_bounded in Hrun; [exact Hrun| | |].
      * now rewrite storeEvents_maxSize.
      * destruct (maxSize s - Z.of_nat (length (batchedEvents s)) <? 0) eqn:E';
          [lia|]. apply Z.ltb_ge in E'. lia.
      * rewrite storeEvents_shouldCycleContinue, storeEvents_batchedEvents,
          storeEvents_maxSize. cbn.
        destruct Hb as [Hh|Hb]; [now left|right].
        destruct (maxSize s - Z.of_nat (length (batchedEvents s)) <? 0) eqn:E';
          [apply Z.ltb_lt in E'; lia|].
        rewrite slice_from_zero by lia.
        rewrite length_app, length_firstn. lia.
  - destruct (emit_spec events s Hm) as
      (s'' & batches & Hrun & Hrec & _ & Hall & _ & Hm' & _).
    rewrite Hrun in He. inversion He; subst.
    rewrite Hrec, Hm'. apply Forall_app. split; [exact Hr|now apply Hall].
Qed.

Lemma cycleBatch_withinCapacity s :
  0 < maxSize s -> withinCapacity s -> withinCapacity (cycleBatch getTime s).
Proof.
  intros Hm [Hb Hr]. unfold withinCapacity.
  rewrite cycleBatch_shouldCycleContinue, cycleBatch_batchedEvents,
    cycleBatch_maxSize, cycleBatch_received.
  split.
  - destruct (shouldCycleContinue s); [right; simpl; lia|now left].
  - apply Forall_app. split; [exact Hr|now apply handedOver_bounded].
Qed.

Lemma step_withinCapacity (a : Action LogEvent) s s' :
  0 < maxSize s -> withinCapacity s -> isRejection a = false ->
  step JSON_stringify getTime a s = Some s' ->
  withinCapacity s'.
Proof.
  intros Hm Hw Hrej. destruct a as [events| | |id|i o]; simpl.
  - destruct emit as [[s1 r]|] eqn:He; [|discriminate].
    intros H. inversion H; subst. eapply emit_withinCapacity; eauto.
  - intros H. inversion H; subst. now apply cycleBatch_withinCapacity.
  - intros H. inversion H; subst. destruct Hw as [_ Hr].
    unfold withinCapacity, stopCycle. fields.
    destruct (batchTimeout s); cbn; auto.
  - destruct (existsb (Nat.eqb id) (timers s)); [|discriminate].
    intros H. inversion H; subst.
    apply cycleBatch_withinCapacity; assumption.
  - destruct (nth_error (inFlight s) i) as [d|]; [|discriminate].
    destruct o; [|discriminate].
    intros H. inversion H; subst. unfold withinCapacity, onFulfilled. cbn.
    destruct (durableStore s); exact Hw.
Qed.

Lemma new_withinCapacity (sink : option (Sink LogEvent))
  (options : option BatchedSinkOptions) s :
  new JSON_stringify JSON_parse getTime sink options = Some s ->
  0 < maxSize s -> withinCapacity s.
Proof.
  unfold new.
  destruct (opt_maxSize _) as [m|]; [|discriminate].
  destruct (opt_period _) as [p|]; [|discriminate].
  set (s0 := cycleBatch getTime _).
  assert (Hm0 : maxSize s0 = m) by (unfold s0; now rewrite cycleBatch_maxSize).
  assert (H0 : 0 < m -> withinCapacity s0).
  { intros Hm. unfold s0. apply cycleBatch_withinCapacity; [exact Hm|].
    split; [right; simpl; lia|constructor]. }
  destruct (durableStore s0) as [st|].
  - destruct rehydrate as [[st' batch]|]; [|discriminate].
    destruct emit as [[s1 r]|] eqn:He; [|discriminate].
    intros H Hm. injection H as <-.
    destruct (emit_frames _ _ _ _ He) as (Hms & _).
    cbn [maxSize set_durableStore] in Hms.
    eapply emit_withinCapacity; [| |exact He].
    + cbn [maxSize set_durableStore]. rewrite <- Hms. exact Hm.
    + apply H0. rewrite <- Hm0, <- Hms. exact Hm.
  - intros H Hm. injection H as <-. apply H0. rewrite <- Hm0. exact Hm.
Qed.

(** X5: as long as no dispatch is rejected, no batch exceeds [maxSize]:
    for a sink constructed with a positive [maxSize], after any history of
    calls, timeouts and fulfilments, every batch the inner sink received
    holds at most [maxSize] events. *)
Theorem batches_within_maxSize (sink : option (Sink LogEvent))
  (options : option BatchedSinkOptions) (acts : list (Action LogEvent))
  s0 s :
  new JSON_stringify JSON_parse getTime sink options = Some s0 ->
  0 < maxSize s0 ->
  (forall i, ~ In (Settle i Rejected) acts) ->
  run JSON_stringify getTime acts s0 = Some s ->
  maxSize s = maxSize s0 /\
  Forall (fun b => Z.of_nat (length b) <= maxSize s0) (received s).
Proof.
  intros Hnew Hm Hno Hrun.
  pose proof (new_withinCapacity sink options s0 Hnew Hm) as Hw.
  clear Hnew. revert s0 Hm Hw Hno Hrun.
  induction acts as [|a acts IH]; intros s0 Hm Hw Hno Hrun.
  - simpl in Hrun. inversion Hrun; subst. split; [reflexivity|apply Hw].
  - simpl in Hrun.
    destruct (step JSON_stringify getTime a s0) as [s1|] eqn:Hs;
      [|discriminate].
    assert (Hrej : isRejection a = false).
    { destruct a as [| | | |i o]; try reflexivity.
      destruct o; [reflexivity|]. exfalso. apply (Hno i). now left. }
    destruct (step_frames a s0 s1 Hs) as (Hm1 & _).
    rewrite <- Hm1. apply IH.
    + lia.
    + eapply step_withinCapacity; eauto.
    + intros i Hin. apply (Hno i). now right.
    + exact Hrun.
Qed.

(** ** The one timeout *)

Lemma oneTimeout_owned s : oneTimeout s -> timersOwned s.
Proof.
  unfold oneTimeout, timersOwned.
  destruct (shouldCycleContinue s && periodic s).
  - intros (id & Hb & Ht) x Hx. rewrite Ht in Hx.
    destruct Hx as [->|[]]. exact Hb.
  - intros Ht x Hx. rewrite Ht in Hx. destruct Hx.
Qed.

Lemma cycleBatch_oneTimeout s :
  timersOwned s -> oneTimeout (cycleBatch getTime s).
Proof.
  intros Ho. unfold oneTimeout, periodic.
  rewrite cycleBatch_shouldCycleContinue, cycleBatch_period,
    cycleBatch_timers, cycleBatch_batchTimeout.
  cbv zeta. rewrite (owned_cleared s Ho).
  destruct (shouldCycleContinue s && (negb (isNaN (period s)) && gt0 (period s)));
    [|reflexivity].
  exists (nextTimer s). split; reflexivity.
Qed.

Lemma storeEvents_push_oneTimeout events s :
  oneTimeout s -> oneTimeout (storeEvents JSON_stringify (push events s)).
Proof.
  unfold oneTimeout, periodic, storeEvents, push. cbn.
  destruct (durableStore s) eqn:E; cbn; rewrite ?E; cbn; auto.
Qed.

Lemma emitLoop_oneTimeout fuel events : forall (cursor : Z) s s',
  oneTimeout s ->
  emitLoop JSON_stringify getTime fuel events cursor s = Some s' ->
  oneTimeout s'.
Proof.
  induction fuel as [|fuel IH]; intros cursor s s' Ho Hrun.
  - simpl in Hrun.
    destruct (cursor <? Z.of_nat (length events)); [discriminate|].
    now inversion Hrun; subst.
  - rewrite emitLoop_unfold in Hrun.
    destruct (cursor <? Z.of_nat (length events)).
    + apply IH in Hrun; [exact Hrun|].
      apply storeEvents_push_oneTimeout, cycleBatch_oneTimeout.
      now apply oneTimeout_owned.
    + now inversion Hrun; subst.
Qed.

Lemma emit_oneTimeout events s s' (result : list LogEvent) :
  oneTimeout s ->
  emit JSON_stringify getTime events s = Some (s', result) ->
  oneTimeout s'.
Proof.
  intros Ho. unfold emit, emitFuel.
  destruct (Z.of_nat (length (batchedEvents s)) + Z.of_nat (length events)
            <=? maxSize s).
  - intros H. inversion H; subst. now apply storeEvents_push_oneTimeout.
  - destruct emitLoop as [s1|] eqn:Hrun; [|discriminate].
    intros H. inversion H; subst.
    apply emitLoop_oneTimeout in Hrun; [exact Hrun|].
    now apply storeEvents_push_oneTimeout.
Qed.

Lemma step_oneTimeout (a : Action LogEvent) s s' :
  oneTimeout s -> step JSON_stringify getTime a s = Some s' ->
  oneTimeout s'.
Proof.
  intros Ho. pose proof (oneTimeout_owned s Ho) as Hown.
  destruct a as [events| | |id|i o]; simpl.
  - destruct emit as [[s1 r]|] eqn:He; [|discriminate].
    intros H. inversion H; subst. eapply emit_oneTimeout; eauto.
  - intros H. inversion H; subst. now apply cycleBatch_oneTimeout.
  - intros H. inversion H; subst.
    pose proof (owned_cleared s Hown) as Hc.
    unfold oneTimeout, stopCycle. fields.
    destruct (batchTimeout s); cbn; exact Hc.
  - destruct (existsb (Nat.eqb id) (timers s)); [|discriminate].
    intros H. inversion H; subst. apply cycleBatch_oneTimeout.
    intros x Hx. cbn in Hx. apply in_remove in Hx. apply Hown. tauto.
  - destruct (nth_error (inFlight s) i) as [d|]; [|discriminate].
    destruct o.
    + intros H. inversion H; subst. unfold oneTimeout, periodic, onFulfilled.
      cbn. destruct (durableStore s); exact Ho.
    + destruct (emitPromiseIsPromise d); [|discriminate].
      intros H. inversion H; subst. exact Ho.
Qed.

Lemma new_oneTimeout (sink : option (Sink LogEvent))
  (options : option BatchedSinkOptions) s :
  new JSON_stringify JSON_parse getTime sink options = Some s ->
  oneTimeout s.
Proof.
  unfold new.
  destruct (opt_maxSize _) as [m|]; [|discriminate].
  destruct (opt_period _) as [p|]; [|discriminate].
  set (s0 := cycleBatch getTime _).
  assert (Ho : oneTimeout s0).
  { apply cycleBatch_oneTimeout. intros id []. }
  destruct (durableStore s0) as [st|].
  - destruct rehydrate as [[st' batch]|]; [|discriminate].
    destruct emit as [[s1 r]|] eqn:He; [|discriminate].
    intros H. inversion H; subst.
    eapply emit_oneTimeout; [|exact He]. exact Ho.
  - intros H. now inversion H; subst.
Qed.

(** X6: whatever is done to a sink after its construction, a sink that
    is running with a positive period has exactly one timeout armed, the one
    whose handle it holds, so the periodic cycle neither lapses nor piles
    up; a sink that is halted, or whose period is not a positive number,
    has no timeout armed. *)
Theorem one_timeout_while_running (sink : option (Sink LogEvent))
  (options : option BatchedSinkOptions) (acts : list (Action LogEvent))
  s0 s :
  new JSON_stringify JSON_parse getTime sink options = Some s0 ->
  run JSON_stringify getTime acts s0 = Some s ->
  (shouldCycleContinue s = true ->
   negb (isNaN (period s)) && gt0 (period s) = true ->
   exists id, batchTimeout s = Some id /\ timers s = [id]) /\
  (shouldCycleContinue s = false \/
   negb (isNaN (period s)) && gt0 (period s) = false ->
   timers s = []).
Proof.
  intros Hnew Hrun.
  assert (Ho : oneTimeout s).
  { eapply (run_invariant oneTimeout); [|eapply new_oneTimeout|]; eauto.
    intros a x y. apply step_oneTimeout. }
  unfold oneTimeout, periodic in Ho. split.
  - intros Hr Hp. now rewrite Hr, Hp in Ho.
  - intros [Hh|Hp].
    + now rewrite Hh in Ho.
    + rewrite Hp, andb_false_r in Ho. exact Ho.
Qed.

(** ** Whose entries the sink touches *)

Lemma cycleBatch_inFlight s :
  inFlight (cycleBatch getTime s)
  = inFlight s ++
    (if shouldCycleContinue s then
       match batchedEvents s with
       | [] => []
       | _ :: _ =>
           [{| processEvents := batchedEvents s;
               previousBatchKey := batchKey s;
               emitPromiseIsPromise :=
                 match innerSink s with
                 | Some k => instanceofPromise (sinkEmit k (batchedEvents s))
                 | None => false
                 end |}]
       end
     else []).
Proof. cycle_cases s; now rewrite app_nil_r. Qed.

Lemma cycleBatch_keysOwn s :
  Forall (fun d => startsWith durableStorageKey (previousBatchKey d) = true)
    (inFlight s) ->
  (batchedEvents s = [] \/ startsWith durableStorageKey (batchKey s) = true) ->
  (shouldCycleContinue s = true \/
   startsWith durableStorageKey (batchKey s) = true) ->
  keysOwn (cycleBatch getTime s).
Proof.
  intros Hf Hb Hk. split.
  - rewrite cycleBatch_batchKey.
    destruct (shouldCycleContinue s); [apply keyAt_own|].
    now destruct Hk.
  - rewrite cycleBatch_inFlight. apply Forall_app. split; [exact Hf|].
    destruct (shouldCycleContinue s); [|constructor].
    destruct (batchedEvents s); [constructor|].
    destruct Hb as [Hb|Hb]; [discriminate|].
    repeat constructor. exact Hb.
Qed.

Lemma storeEvents_push_keysOwn events s :
  keysOwn s -> keysOwn (storeEvents JSON_stringify (push events s)).
Proof.
  unfold keysOwn. now rewrite storeEvents_batchKey, storeEvents_inFlight.
Qed.

Lemma storeEvents_durableStore s (st : Storage) :
  durableStore s = Some st ->
  durableStore (storeEvents JSON_stringify s)
  = Some (setItem st (batchKey s) (JSON_stringify (batchedEvents s))).
Proof. intros H. unfold storeEvents. now rewrite H. Qed.

Lemma own_is_not_foreign (key key' : string) :
  startsWith durableStorageKey key = true ->
  startsWith durableStorageKey key' = false -> key <> key'.
Proof. intros H H' ->. congruence. Qed.

Lemma storeEvents_push_foreignKept (st0 : Storage) events s :
  keysOwn s -> foreignKept st0 s ->
  foreignKept st0 (storeEvents JSON_stringify (push events s)).
Proof.
  intros [Hk _] (st & Hst & Hf).
  exists (setItem st (batchKey s) (JSON_stringify (batchedEvents s ++ events))).
  split.
  - now rewrite (storeEvents_durableStore (push events s) st).
  - intros key Hkey. rewrite getItem_setItem_other; [now apply Hf|].
    now apply own_is_not_foreign.
Qed.

Lemma cycleBatch_foreignKept (st0 : Storage) s :
  foreignKept st0 s -> foreignKept st0 (cycleBatch getTime s).
Proof. unfold foreignKept. now rewrite cycleBatch_durableStore. Qed.

Lemma keysOwn_cycle s : keysOwn s -> keysOwn (cycleBatch getTime s).
Proof. intros [Hk Hf]. apply cycleBatch_keysOwn; auto. Qed.

Lemma emitLoop_foreign (st0 : Storage) fuel events : forall (cursor : Z) s s',
  keysOwn s -> foreignKept st0 s ->
  emitLoop JSON_stringify getTime fuel events cursor s = Some s' ->
  keysOwn s' /\ foreignKept st0 s'.
Proof.
  induction fuel as [|fuel IH]; intros cursor s s' Hk Hf Hrun.
  - simpl in Hrun.
    destruct (cursor <? Z.of_nat (length events)); [discriminate|].
    now inversion Hrun; subst.
  - rewrite emitLoop_unfold in Hrun.
    destruct (cursor <? Z.of_nat (length events)).
    + apply IH in Hrun; [exact Hrun| |].
      * now apply storeEvents_push_keysOwn, keysOwn_cycle.
      * apply storeEvents_push_foreignKept; [now apply keysOwn_cycle|].
        now apply cycleBatch_foreignKept.
    + now inversion Hrun; subst.
Qed.

Lemma emit_foreign (st0 : Storage) events s s' (result : list LogEvent) :
  keysOwn s -> foreignKept st0 s ->
  emit JSON_stringify getTime events s = Some (s', result) ->
  keysOwn s' /\ foreignKept st0 s'.
Proof.
  intros Hk Hf. unfold emit, emitFuel.
  destruct (Z.of_nat (length (batchedEvents s)) + Z.of_nat (length events)
            <=? maxSize s).
  - intros H. inversion H; subst.
    split; [now apply storeEvents_push_keysOwn|
            now apply storeEvents_push_foreignKept].
  - destruct emitLoop as [s1|] eqn:Hrun; [|discriminate].
    intros H. inversion H; subst.
    apply (emitLoop_foreign st0) in Hrun; [exact Hrun| |].
    + now apply storeEvents_push_keysOwn.
    + now apply storeEvents_push_foreignKept.
Qed.

Lemma Forall_dropNth {A : Type} (P : A -> Prop) (l : list A) : forall i,
  Forall P l -> Forall P (dropNth i l).
Proof.
  induction l as [|a l IH]; intros i H; [now destruct i|].
  inversion H; subst. destruct i; simpl; [assumption|].
  constructor; auto.
Qed.

Lemma step_foreign (st0 : Storage) (a : Action LogEvent) s s' :
  keysOwn s -> foreignKept st0 s ->
  step JSON_stringify getTime a s = Some s' ->
  keysOwn s' /\ foreignKept st0 s'.
Proof.
  intros Hk Hf. destruct a as [events| | |id|i o]; simpl.
  - destruct emit as [[s1 r]|] eqn:He; [|discriminate].
    intros H. inversion H; subst. eapply emit_foreign; eauto.
  - intros H. inversion H; subst.
    split; [now apply keysOwn_cycle|now apply cycleBatch_foreignKept].
  - intros H. inversion H; subst. unfold keysOwn, foreignKept, stopCycle.
    fields. destruct (batchTimeout s); cbn; split; assumption.
  - destruct (existsb (Nat.eqb id) (timers s)); [|discriminate].
    intros H. inversion H; subst.
    split; [apply keysOwn_cycle|apply cycleBatch_foreignKept]; assumption.
  - destruct (nth_error (inFlight s) i) as [d|] eqn:Hn; [|discriminate].
    destruct Hk as [Hk Hfl].
    assert (Hd : startsWith durableStorageKey (previousBatchKey d) = true).
    { apply nth_error_In in Hn. rewrite Forall_forall in Hfl. now apply Hfl. }
    assert (Hfl' : Forall
              (fun d => startsWith durableStorageKey (previousBatchKey d) = true)
              (dropNth i (inFlight s))) by now apply Forall_dropNth.
    destruct o.
    + intros H. inversion H; subst.
      destruct Hf as (st & Hst & Hf).
      unfold keysOwn, foreignKept, onFulfilled. cbn. rewrite Hst. cbn.
      split; [split; assumption|].
      exists (removeItem st (previousBatchKey d)). split; [reflexivity|].
      intros key Hkey. rewrite getItem_removeItem_other; [now apply Hf|].
      now apply own_is_not_foreign.
    + destruct (emitPromiseIsPromise d); [|discriminate].
      intros H. inversion H; subst. split; [split; assumption|exact Hf].
Qed.

Lemma rehydrate_foreign (keys : list string) :
  forall (st st' : Storage) (acc batch : list LogEvent),
  rehydrate JSON_parse keys st acc = Some (st', batch) ->
  forall key, startsWith durableStorageKey key = false ->
    getItem st' key = getItem st key.
Proof.
  induction keys as [|k keys IH]; intros st st' acc batch Hre key Hkey.
  - simpl in Hre. now inversion Hre; subst.
  - simpl in Hre.
    destruct (startsWith durableStorageKey k) eqn:Hk; [|eauto].
    destruct (getItem st k) as [text|]; [|eauto].
    destruct (JSON_parse text) as [evs|]; [|discriminate].
    rewrite (IH _ _ _ _ Hre key Hkey).
    apply getItem_removeItem_other. now apply own_is_not_foreign.
Qed.

Lemma new_foreign (sink : option (Sink LogEvent))
  (options : option BatchedSinkOptions) (st0 : Storage) s :
  opt_durableStore (spread defaultBatchedSinkOptions options) = Some st0 ->
  new JSON_stringify JSON_parse getTime sink options = Some s ->
  keysOwn s /\ foreignKept st0 s.
Proof.
  intros Hst. unfold new.
  destruct (opt_maxSize _) as [m|]; [|discriminate].
  destruct (opt_period _) as [p|]; [|discriminate].
  rewrite cycleBatch_durableStore. cbn [durableStore fresh]. rewrite Hst.
  destruct rehydrate as [[st' batch]|] eqn:Hre; [|discriminate].
  destruct emit as [[s1 r]|] eqn:He; [|discriminate].
  intros H. injection H as <-.
  eapply emit_foreign; [| |exact He].
  - apply (cycleBatch_keysOwn (fresh sink m p (Some st0)));
      [constructor|now left|now left].
  - exists st'. split; [reflexivity|].
    intros key Hkey. eapply rehydrate_foreign; eauto.
Qed.

(** X7: the sink leaves the entries of others alone: whatever is done
    to a sink after its construction on a store, what the store holds under
    any key that does not start with [durableStorageKey] is what it held
    before the construction. *)
Theorem foreign_entries_untouched (sink : option (Sink LogEvent))
  (options : option BatchedSinkOptions) (st0 : Storage)
  (acts : list (Action LogEvent)) s0 s :
  opt_durableStore (spread defaultBatchedSinkOptions options) = Some st0 ->
  new JSON_stringify JSON_parse getTime sink options = Some s0 ->
  run JSON_stringify getTime acts s0 = Some s ->
  exists st,
    durableStore s = Some st /\
    forall key, startsWith durableStorageKey key = false ->
      getItem st key = getItem st0 key.
Proof.
  intros Hst Hnew Hrun.
  assert (H : keysOwn s /\ foreignKept st0 s).
  { eapply (run_invariant (fun x => keysOwn x /\ foreignKept st0 x));
      [|eapply new_foreign; eauto|exact Hrun].
    intros a x y [Hk Hf]. now apply step_foreign. }
  exact (proj2 H).
Qed.

(** ** The entry of the buffer and the clock *)

(** X8: a running sink whose key was assigned at clock reading [t]
    cycles with a non-empty buffer, takes events that fit, and sees the
    dispatch of that cycle fulfilled.  The fulfilment removes the entry
    under the key of the dispatch.  If the clock had advanced at the cycle,
    the new key differs and the entry of the buffer stays; if it still read
    [t], the new key is the old one, and the buffer is left without an entry
    in the store. *)
Theorem mirror_survives_iff_clock_advanced s (st : Storage) (t : Z) events :
  shouldCycleContinue s = true ->
  batchedEvents s <> [] ->
  durableStore s = Some st ->
  batchKey s = keyAt t ->
  Z.of_nat (length events) <= maxSize s ->
  exists s1 s2 st2,
    run JSON_stringify getTime [Flush; Emit events] s = Some s1 /\
    step JSON_stringify getTime (Settle (length (inFlight s)) Fulfilled) s1
    = Some s2 /\
    batchedEvents s2 = events /\
    batchKey s2 = keyAt (getTime (clockReads s)) /\
    durableStore s2 = Some st2 /\
    getItem st2 (keyAt t) = None /\
    (getTime (clockReads s) <> t ->
     getItem st2 (batchKey s2) = Some (JSON_stringify events)) /\
    (getTime (clockReads s) = t -> getItem st2 (batchKey s2) = None).
Proof.
  intros Hrun Hne Hst Hkey Hfit.
  set (sc := cycleBatch getTime s).
  assert (Hbc : batchedEvents sc = []).
  { unfold sc. now rewrite cycleBatch_batchedEvents, Hrun. }
  assert (Hkc : batchKey sc = keyAt (getTime (clockReads s))).
  { unfold sc. now rewrite cycleBatch_batchKey, Hrun. }
  assert (Hdc : durableStore sc = Some st).
  { unfold sc. now rewrite cycleBatch_durableStore. }
  assert (Hfc : exists d, inFlight sc = inFlight s ++ [d] /\
                          previousBatchKey d = batchKey s).
  { unfold sc. rewrite cycleBatch_inFlight, Hrun.
    destruct (batchedEvents s); [contradiction|].
    eexists. split; reflexivity. }
  destruct Hfc as (d & Hfc & Hd).
  set (s1 := storeEvents JSON_stringify (push events sc)).
  assert (Hd1 : durableStore s1
                = Some (setItem st (keyAt (getTime (clockReads s)))
                          (JSON_stringify events))).
  { unfold s1. rewrite (storeEvents_durableStore (push events sc) st Hdc).
    cbn. now rewrite Hkc, Hbc. }
  assert (Hn : nth_error (inFlight s1) (length (inFlight s)) = Some d).
  { unfold s1. rewrite storeEvents_inFlight. cbn. rewrite Hfc.
    rewrite nth_error_app2 by lia. now rewrite Nat.sub_diag. }
  exists s1, (onFulfilled d (set_inFlight (dropNth (length (inFlight s))
                                            (inFlight s1)) s1)).
  eexists. split.
  { cbn [run step flush fst]. fold sc. rewrite emit_fits; [reflexivity|].
    rewrite Hbc. unfold sc. rewrite cycleBatch_maxSize. simpl. lia. }
  split.
  { cbn [step]. now rewrite Hn. }
  unfold onFulfilled. cbn [durableStore set_inFlight]. rewrite Hd1.
  cbn [batchedEvents batchKey durableStore set_durableStore set_inFlight].
  split.
  { unfold s1. rewrite storeEvents_batchedEvents. cbn. now rewrite Hbc. }
  split.
  { unfold s1. rewrite storeEvents_batchKey. cbn. exact Hkc. }
  split; [reflexivity|].
  rewrite Hd, Hkey.
  split; [apply getItem_removeItem_same|].
  unfold s1. rewrite storeEvents_batchKey. cbn [batchKey push set_batchedEvents].
  rewrite Hkc. split.
  - intros Hclock. rewrite getItem_removeItem_other.
    + apply getItem_setItem_same.
    + intros E. apply keyAt_inj in E. congruence.
  - intros ->. apply getItem_removeItem_same.
Qed.

(** ** Retry *)

(** X9: when the dispatch of a running sink is rejected, its events go
    out again with the next cycle, in one batch with the events that were
    emitted in the meantime and ahead of them, however many that makes;
    the rejection itself writes nothing to the store. *)
Theorem rejected_events_lead_next_batch s (i : nat) (d : Dispatch LogEvent)
  (k : Sink LogEvent) :
  nth_error (inFlight s) i = Some d ->
  emitPromiseIsPromise d = true ->
  processEvents d <> [] ->
  shouldCycleContinue s = true ->
  innerSink s = Some k ->
  exists s',
    run JSON_stringify getTime [Settle i Rejected; Flush] s = Some s' /\
    received s' = received s ++ [processEvents d ++ batchedEvents s] /\
    batchedEvents s' = [] /\
    durableStore s' = durableStore s.
Proof.
  intros Hn Hp Hne Hrun Hk.
  eexists. split.
  { cbn [run step]. rewrite Hn, Hp. reflexivity. }
  unfold flush. cbn [fst].
  rewrite cycleBatch_received, cycleBatch_batchedEvents,
    cycleBatch_durableStore.
  unfold handedOver, onRejected. cbn. rewrite Hrun, Hk.
  destruct (processEvents d) as [|e l] eqn:E; [contradiction|].
  cbn. repeat split.
Qed.

(** ** A sink without capacity *)

(** X10: with a [maxSize] that is zero or negative, [emit] of one event
    or more never returns, however long it is let run, and so no history
    goes past such a call. *)
Theorem emit_hangs_without_capacity events s :
  maxSize s <= 0 -> events <> [] ->
  (forall fuel, emitFuel JSON_stringify getTime fuel events s = None) /\
  forall acts, run JSON_stringify getTime (Emit events :: acts) s = None.
Proof.
  intros Hm Hne. split.
  - intros fuel. now apply emit_never_returns.
  - intros acts. cbn [run step]. unfold emit.
    now rewrite emit_never_returns.
Qed.

(** ** From one process to the next *)

Lemma own_nil_foreign (st : Storage) :
  ownEntries st = [] -> foreignEntries st = st.
Proof.
  unfold ownEntries, foreignEntries.
  induction st as [|[k v] st IH]; [reflexivity|]. simpl.
  destruct (startsWith durableStorageKey k); [discriminate|].
  intros H. simpl. now rewrite IH.
Qed.

Lemma setItem_setItem (st : Storage) (key a b : string) :
  setItem (setItem st key a) key b = setItem st key b.
Proof.
  induction st as [|[k v] st IH]; simpl.
  - now rewrite String.eqb_refl.
  - destruct (String.eqb k key) eqn:E; simpl; rewrite E; [reflexivity|].
    now rewrite IH.
Qed.

Lemma ownEntries_setItem_first (st : Storage) (key value : string) :
  ownEntries st = [] ->
  startsWith durableStorageKey key = true ->
  ownEntries (setItem st key value) = [(key, value)].
Proof.
  intros Hown Hkey. unfold ownEntries in *.
  induction st as [|[k v] st IH]; simpl in *.
  - now rewrite Hkey.
  - destruct (startsWith durableStorageKey k) eqn:Hk; [discriminate|].
    destruct (String.eqb k key) eqn:E.
    + apply String.eqb_eq in E. congruence.
    + simpl. rewrite Hk. now apply IH.
Qed.

(** ** After [stopCycle] *)

(** X12: halting does not cancel a dispatch in flight: its settlement
    after [stopCycle] does to the buffer, the store and the dispatches in
    flight exactly what it would have done before, in whichever order the
    two happen. *)
Theorem settlement_commutes_with_stop s (i : nat) (o : outcome) :
  step JSON_stringify getTime (Settle i o) (stopCycle s)
  = match step JSON_stringify getTime (Settle i o) s with
    | Some s' => Some (stopCycle s')
    | None => None
    end.
Proof.
  destruct s as [m p ds k be bt bk scc tm nt cr fl rc cy].
  unfold step, stopCycle, clearTimeout, onFulfilled, onRejected.
  destruct bt; fields; destruct (nth_error fl i) as [d|]; try reflexivity;
    destruct o; fields; try (destruct ds; reflexivity);
    destruct (emitPromiseIsPromise d); reflexivity.
Qed.

Lemma emit_halted_buffer events s s' (result : list LogEvent) :
  shouldCycleContinue s = false ->
  emit JSON_stringify getTime events s = Some (s', result) ->
  batchedEvents s' = batchedEvents s ++ events.
Proof.
  intros Hh He.
  pose proof (emit_conserves events s s' result) as Hc.
  destruct (emit_halted events s s' result Hh He) as (Hr & _).
  rewrite Hr in Hc. apply app_inv_head in Hc; [exact Hc| |exact He].
  intros Hrun. congruence.
Qed.

Lemma step_halted (a : Action LogEvent) s s' :
  shouldCycleContinue s = false ->
  step JSON_stringify getTime a s = Some s' ->
  shouldCycleContinue s' = false /\ received s' = received s /\
  (isRejection a = false ->
   batchedEvents s' = batchedEvents s ++ emitted [a]).
Proof.
  intros Hh. destruct a as [events| | |id|i o]; simpl.
  - destruct emit as [[s1 r]|] eqn:He; [|discriminate].
    intros H. inversion H; subst.
    destruct (emit_frames _ _ _ _ He) as (_ & _ & _ & Hs).
    destruct (emit_halted _ _ _ _ Hh He) as (Hr & _).
    rewrite app_nil_r. repeat split; [congruence|exact Hr|].
    intros _. eapply emit_halted_buffer; eauto.
  - intros H. inversion H; subst. rewrite (cycleBatch_halted s Hh). cbn.
    rewrite app_nil_r. auto.
  - intros H. inversion H; subst. unfold stopCycle. fields.
    rewrite app_nil_r. destruct (batchTimeout s); cbn; auto.
  - destruct (existsb (Nat.eqb id) (timers s)); [|discriminate].
    intros H. inversion H; subst.
    rewrite (cycleBatch_halted (clearTimeout id s) Hh). cbn.
    rewrite app_nil_r. auto.
  - destruct (nth_error (inFlight s) i) as [d|]; [|discriminate].
    destruct o.
    + intros H. inversion H; subst. unfold onFulfilled. cbn.
      rewrite app_nil_r. destruct (durableStore s); cbn; auto.
    + destruct (emitPromiseIsPromise d); [|discriminate].
      intros H. inversion H; subst. cbn. repeat split; auto. discriminate.
Qed.

(** X13: a halted sink stays halted, and nothing is ever handed to its
    inner sink again: no call, timeout or settlement restarts it or makes it
    dispatch.  As long as no earlier dispatch is rejected, all the events
    emitted since are in its buffer, behind those it held. *)
Theorem halted_sink_never_dispatches (acts : list (Action LogEvent)) :
  forall s s',
  shouldCycleContinue s = false ->
  run JSON_stringify getTime acts s = Some s' ->
  shouldCycleContinue s' = false /\
  received s' = received s /\
  ((forall i, ~ In (Settle i Rejected) acts) ->
   batchedEvents s' = batchedEvents s ++ emitted acts).
Proof.
  induction acts as [|a acts IH]; intros s s' Hh Hrun.
  - simpl in Hrun. inversion Hrun; subst. simpl. rewrite app_nil_r. auto.
  - simpl in Hrun.
    destruct (step JSON_stringify getTime a s) as [s1|] eqn:Hs;
      [|discriminate].
    destruct (step_halted a s s1 Hh Hs) as (Hh1 & Hr1 & Hb1).
    destruct (IH s1 s' Hh1 Hrun) as (Hh' & Hr' & Hb').
    split; [exact Hh'|]. split; [congruence|].
    intros Hno.
    assert (Hrej : isRejection a = false).
    { destruct a as [| | | |i o]; try reflexivity.
      destruct o; [reflexivity|]. exfalso. apply (Hno i). now left. }
    rewrite Hb', (Hb1 Hrej).
    + unfold emitted. cbn [flat_map]. now rewrite app_nil_r, <- app_assoc.
    + intros i Hin. apply (Hno i). now right.
Qed.

(** ** An over-full buffer *)

(** X14: a buffer can hold more than [maxSize] events, after a
    rejection.  An [emit] on such a buffer of a running sink takes no event
    into it: the first cycle it forces hands the buffer over whole, as one
    batch longer than [maxSize]; the events given follow in batches of at
    most [maxSize], the last of them staying in the buffer. *)
Theorem emit_on_overfull_buffer events s (k : Sink LogEvent) :
  0 < maxSize s ->
  maxSize s < Z.of_nat (length (batchedEvents s)) ->
  events <> [] ->
  shouldCycleContinue s = true ->
  innerSink s = Some k ->
  exists s' batches,
    emit JSON_stringify getTime events s = Some (s', events) /\
    received s' = received s ++ batchedEvents s :: batches /\
    Forall (fun b => Z.of_nat (length b) <= maxSize s) batches /\
    concat batches ++ batchedEvents s' = events.
Proof.
  intros Hm Hover Hne Hrun Hk.
  assert (Hn : 0 < Z.of_nat (length events))
    by (destruct events; [contradiction|simpl; lia]).
  set (s1 := storeEvents JSON_stringify (push (slice events 0 0) s)).
  assert (Hb1 : batchedEvents s1 = batchedEvents s).
  { unfold s1. rewrite storeEvents_batchedEvents. cbn.
    rewrite slice_from_zero by lia. cbn. now rewrite app_nil_r. }
  assert (Hm1 : maxSize s1 = maxSize s)
    by (unfold s1; now rewrite storeEvents_maxSize).
  assert (Hr1 : received s1 = received s)
    by (unfold s1; now rewrite storeEvents_received).
  assert (Hh1 : handedOver s1 = [batchedEvents s]).
  { unfold handedOver, s1.
    rewrite storeEvents_shouldCycleContinue, storeEvents_innerSink.
    fold s1. rewrite Hb1. cbn. rewrite Hrun, Hk.
    destruct (batchedEvents s); [simpl in Hover; lia|reflexivity]. }
  set (s2 := storeEvents JSON_stringify
               (push (slice events 0 (0 + maxSize s1))
                  (cycleBatch getTime s1))).
  assert (Hm2 : maxSize s2 = maxSize s).
  { unfold s2. now rewrite storeEvents_maxSize, push_maxSize,
      cycleBatch_maxSize. }
  assert (Hrun2 : shouldCycleContinue s2 = true).
  { unfold s2. rewrite storeEvents_shouldCycleContinue,
      push_shouldCycleContinue, cycleBatch_shouldCycleContinue.
    unfold s1. now rewrite storeEvents_shouldCycleContinue. }
  assert (Hk2 : innerSink s2 = Some k).
  { unfold s2. rewrite storeEvents_innerSink, push_innerSink,
      cycleBatch_innerSink. unfold s1. now rewrite storeEvents_innerSink. }
  assert (Hb2 : batchedEvents s2 = slice events 0 (0 + maxSize s)).
  { unfold s2. rewrite storeEvents_batchedEvents. cbn.
    rewrite cycleBatch_batchedEvents. unfold s1 at 1.
    rewrite storeEvents_shouldCycleContinue. cbn. rewrite Hrun.
    now rewrite Hm1. }
  assert (Hr2 : received s2 = received s ++ [batchedEvents s]).
  { unfold s2. rewrite storeEvents_received. cbn.
    now rewrite cycleBatch_received, Hh1, Hr1. }
  destruct (length events) as [|fuel] eqn:Hlen; [simpl in Hn; lia|].
  destruct (emitLoop_spec fuel events (0 + maxSize s1) s2) as
    (s' & batches & Hloop & Hrec & Hcat & Hall & _).
  { now rewrite Hm2. }
  { lia. }
  { rewrite Hm2, Hm1, Hlen. nia. }
  exists s', batches. split.
  { unfold emit, emitFuel. rewrite Hlen.
    assert (E : (Z.of_nat (length (batchedEvents s)) + Z.of_nat (S fuel)
                 <=? maxSize s) = false) by (apply Z.leb_gt; lia).
    rewrite E.
    destruct (maxSize s - Z.of_nat (length (batchedEvents s)) <? 0) eqn:E';
      [|apply Z.ltb_ge in E'; lia].
    fold s1. rewrite emitLoop_unfold.
    destruct (0 <? Z.of_nat (length events)) eqn:E0;
      [|apply Z.ltb_ge in E0; lia].
    fold s2. now rewrite Hloop. }
  split.
  { rewrite Hrec, Hr2, <- app_assoc. reflexivity. }
  split.
  { rewrite <- Hm2. apply Hall. right. rewrite Hb2, Hm2.
    apply slice_window_length; lia. }
  rewrite Hcat by (intros _; now rewrite Hk2).
  rewrite Hb2, Hm1.
  now rewrite <- (skipn_window events 0 (maxSize s)) by lia.
Qed.

End Proofs.

(** * Across two processes *)

Section Restart.

Context {LogEvent : Type}.
Variable JSON_stringify : list LogEvent -> string.
Variable JSON_parse : string -> option (list LogEvent).

(** The clock of the first process and the clock of the second. *)
Variables getTime getTime2 : nat -> Z.

(** X11: events that were emitted and not yet dispatched survive the
    end of the process.  A sink is constructed on a store that holds no
    entry of its own, and takes events that fit; they are only in the
    buffer.  If their text parses back to them, a sink constructed later,
    by another process with its own clock, capacity and inner sink, on the
    store as the first sink left it, recovers exactly these events: they
    are, in order, the batches its inner sink received followed by its
    buffer. *)
Theorem restart_recovers_buffer (sink1 sink2 : option (Sink LogEvent))
  (m1 m2 : Z) (p1 p2 : number) (st0 : Storage) (events : list LogEvent) :
  0 < m1 -> 0 < m2 ->
  NoDup (storageKeys st0) ->
  ownEntries st0 = [] ->
  Z.of_nat (length events) <= m1 ->
  JSON_parse (JSON_stringify events) = Some events ->
  exists s0 s1 st1 s2,
    new JSON_stringify JSON_parse getTime sink1
      (Some {| opt_maxSize := Some m1; opt_period := Some p1;
               opt_durableStore := Some st0 |}) = Some s0 /\
    emit JSON_stringify getTime events s0 = Some (s1, events) /\
    received s1 = [] /\
    batchedEvents s1 = events /\
    durableStore s1 = Some st1 /\
    new JSON_stringify JSON_parse getTime2 sink2
      (Some {| opt_maxSize := Some m2; opt_period := Some p2;
               opt_durableStore := Some st1 |}) = Some s2 /\
    (sink2 <> None ->
     concat (received s2) ++ batchedEvents s2 = events).
Proof.
  intros Hm1 Hm2 Hnd Hown Hfit Hparse.
  set (key0 := keyAt (getTime 0)).
  set (sB := set_durableStore (Some st0)
               (cycleBatch getTime (fresh sink1 m1 p1 (Some st0)))).
  assert (HbB : batchedEvents sB = []).
  { unfold sB. cbn [batchedEvents set_durableStore].
    now rewrite cycleBatch_batchedEvents. }
  assert (HrB : received sB = []).
  { unfold sB. cbn [received set_durableStore].
    now rewrite cycleBatch_received. }
  assert (HkB : batchKey sB = key0).
  { unfold sB. cbn [batchKey set_durableStore].
    now rewrite cycleBatch_batchKey. }
  assert (HmB : maxSize sB = m1).
  { unfold sB. cbn [maxSize set_durableStore]. now rewrite cycleBatch_maxSize. }
  assert (HdB : durableStore sB = Some st0) by reflexivity.
  set (s0 := storeEvents JSON_stringify (push [] sB)).
  set (s1 := storeEvents JSON_stringify (push events s0)).
  assert (Hb0 : batchedEvents s0 = []).
  { unfold s0. rewrite storeEvents_batchedEvents. unfold push; cbn [batchedEvents batchKey received set_batchedEvents].
    now rewrite HbB. }
  assert (Hd0 : durableStore s0
                = Some (setItem st0 key0 (JSON_stringify []))).
  { unfold s0. rewrite (storeEvents_durableStore JSON_stringify (push [] sB) st0 HdB).
    unfold push; cbn [batchedEvents batchKey received set_batchedEvents]. now rewrite HkB, HbB. }
  assert (Hk0 : batchKey s0 = key0).
  { unfold s0. now rewrite storeEvents_batchKey. }
  assert (Hd1 : durableStore s1
                = Some (setItem st0 key0 (JSON_stringify events))).
  { unfold s1. rewrite (storeEvents_durableStore JSON_stringify (push events s0) _ Hd0).
    unfold push; cbn [batchedEvents batchKey received set_batchedEvents]. rewrite Hk0, Hb0. now rewrite setItem_setItem. }
  set (st1 := setItem st0 key0 (JSON_stringify events)).
  assert (Hown1 : ownEntries st1 = [(key0, JSON_stringify events)]).
  { apply ownEntries_setItem_first; [exact Hown|apply keyAt_own]. }
  assert (Hre1 : rehydrate JSON_parse (storageKeys st1) st1 []
                 = Some (foreignEntries st1, concat [events])).
  { apply rehydrate_store; [now apply NoDup_setItem|].
    rewrite Hown1. repeat constructor. exact Hparse. }
  set (sC := set_durableStore (Some (foreignEntries st1))
               (cycleBatch getTime2 (fresh sink2 m2 p2 (Some st1)))).
  assert (HmC : maxSize sC = m2).
  { unfold sC. cbn [maxSize set_durableStore]. now rewrite cycleBatch_maxSize. }
  assert (HbC : batchedEvents sC = []).
  { unfold sC. cbn [batchedEvents set_durableStore].
    now rewrite cycleBatch_batchedEvents. }
  assert (HrC : received sC = []).
  { unfold sC. cbn [received set_durableStore].
    now rewrite cycleBatch_received. }
  assert (HkC : innerSink sC = sink2).
  { unfold sC. cbn [innerSink set_durableStore].
    now rewrite cycleBatch_innerSink. }
  destruct (emit_spec JSON_stringify getTime2 (concat [events]) sC) as
    (s2 & batches & Hrun2 & Hrec2 & Hcat2 & _); [rewrite HmC; exact Hm2|].
  exists s0, s1, st1, s2.
  split.
  { unfold new. cbn [spread orElse opt_maxSize opt_period opt_durableStore].
    rewrite cycleBatch_durableStore. cbn [durableStore fresh].
    rewrite (rehydrate_store JSON_parse st0 [] Hnd); [|rewrite Hown; constructor].
    rewrite (own_nil_foreign st0 Hown). cbn [concat]. fold sB.
    now rewrite emit_nil. }
  split.
  { rewrite emit_fits; [reflexivity|].
    rewrite Hb0. unfold s0. rewrite storeEvents_maxSize, push_maxSize, HmB.
    simpl. lia. }
  split.
  { unfold s1, s0. rewrite !storeEvents_received. unfold push; cbn [batchedEvents batchKey received set_batchedEvents].
    exact HrB. }
  split.
  { unfold s1. rewrite storeEvents_batchedEvents. unfold push; cbn [batchedEvents batchKey received set_batchedEvents].
    now rewrite Hb0. }
  split; [exact Hd1|].
  split.
  { unfold new. cbn [spread orElse opt_maxSize opt_period opt_durableStore].
    rewrite cycleBatch_durableStore. cbn [durableStore fresh].
    rewrite Hre1. fold sC. now rewrite Hrun2. }
  intros Hsink. rewrite Hrec2, HrC. cbn [app].
  rewrite Hcat2; [|intros _; now rewrite HkC].
  rewrite HbC. cbn. now rewrite app_nil_r.
Qed.

End Restart.

(** * The properties at concrete sinks *)

Ltac evaluate := vm_compute; first [reflexivity | discriminate | lia].

(** The example sink is what the constructor returns. *)
Lemma exampleSink_constructed :
  new digitsOf ofDigits ticking (Some promisingSink)
    (Some (manualOptions 3 None)) = Some exampleSink.
Proof. reflexivity. Qed.

(** Witness of C1 (amended): five events into the empty buffer of
    capacity 3 of the running example sink. *)
Lemma emit_overflow_batches_witness :
  0 < maxSize exampleSink /\
  Z.of_nat (length (batchedEvents exampleSink)) <= maxSize exampleSink /\
  maxSize exampleSink
  < Z.of_nat (length (batchedEvents exampleSink)) + Z.of_nat 5 /\
  innerSink exampleSink = Some promisingSink /\
  exists s' batches,
    emit digitsOf ticking [1; 2; 3; 4; 5]%nat exampleSink
    = Some (s', [1; 2; 3; 4; 5]%nat) /\
    received s' = received exampleSink ++ batches /\
    Forall (fun b => Z.of_nat (length b) <= maxSize exampleSink) batches /\
    concat batches ++ batchedEvents s'
    = batchedEvents exampleSink ++ [1; 2; 3; 4; 5]%nat /\
    Z.of_nat (cycles s') - Z.of_nat (cycles exampleSink)
    = ceilDiv (Z.of_nat (length (batchedEvents exampleSink))
               + Z.of_nat 5 - maxSize exampleSink) (maxSize exampleSink) /\
    Forall (fun b => Z.of_nat (length b) = maxSize exampleSink) batches /\
    Z.of_nat (length batches)
    = ceilDiv (Z.of_nat (length (batchedEvents exampleSink))
               + Z.of_nat 5 - maxSize exampleSink) (maxSize exampleSink) /\
    0 < Z.of_nat (length (batchedEvents s')) <= maxSize exampleSink.
Proof.
  assert (H1 : 0 < maxSize exampleSink) by evaluate.
  assert (H2 : Z.of_nat (length (batchedEvents exampleSink))
               <= maxSize exampleSink) by evaluate.
  assert (H3 : maxSize exampleSink
               < Z.of_nat (length (batchedEvents exampleSink))
                 + Z.of_nat (length [1; 2; 3; 4; 5]%nat)) by evaluate.
  assert (H4 : innerSink exampleSink = Some promisingSink) by reflexivity.
  split; [exact H1|]. split; [exact H2|]. split; [exact H3|].
  split; [exact H4|].
  destruct (emit_overflow_batches digitsOf ticking [1; 2; 3; 4; 5]%nat
              exampleSink promisingSink H1 H2 H3 H4)
    as (s' & batches & He & Hr & Hall & Hcat & Hcyc & Hgo & _).
  destruct (Hgo eq_refl) as (Hfull & Hlen & Hbuf).
  exists s', batches. repeat (split; [assumption|]). exact Hbuf.
Defined.

(** Counterexample to C1 as stated: with [1] in the buffer of capacity
    3, [emit([2,3,4,5,6])] overflows; the call hands the inner sink the one
    batch [[1,2,3]], and a following [flush()] the batch [[4,5,6]].
    Neither the batches of the call nor those with the flush make up the
    events given, [[2,3,4,5,6]]. *)
Lemma emit_overflow_concat_differs :
  exists s1 s2,
    emit digitsOf ticking [1%nat] exampleSink = Some (s1, [1%nat]) /\
    batchedEvents s1 = [1%nat] /\ received s1 = [] /\ maxSize s1 = 3 /\
    emit digitsOf ticking [2; 3; 4; 5; 6]%nat s1
    = Some (s2, [2; 3; 4; 5; 6]%nat) /\
    received s2 = [[1; 2; 3]%nat] /\
    concat (received s2) <> [2; 3; 4; 5; 6]%nat /\
    received (fst (flush ticking s2)) = [[1; 2; 3]; [4; 5; 6]]%nat /\
    concat (received (fst (flush ticking s2))) <> [2; 3; 4; 5; 6]%nat.
Proof.
  eexists. eexists.
  split; [vm_compute; reflexivity|].
  split; [reflexivity|]. split; [reflexivity|]. split; [reflexivity|].
  split; [vm_compute; reflexivity|].
  split; [reflexivity|]. split; [vm_compute; discriminate|].
  split; [reflexivity|]. vm_compute; discriminate.
Qed.

(** Witness of C2: the sink with [1, 2] in its buffer cycles; the
    dispatch is rejected when the buffer holds [3]. *)
Lemma rejected_dispatch_is_requeued_witness :
  let s0 := push [1; 2]%nat exampleSink in
  let s := push [3]%nat (cycleBatch ticking s0) in
  shouldCycleContinue s0 = true /\
  batchedEvents s0 <> [] /\
  innerSink s0 = Some promisingSink /\
  instanceofPromise (sinkEmit promisingSink (batchedEvents s0)) = true /\
  exists s',
    step digitsOf ticking (Settle 0 Rejected) s = Some s' /\
    batchedEvents s' = [1; 2; 3]%nat /\
    durableStore s' = durableStore s.
Proof.
  intros s0 s.
  assert (H1 : shouldCycleContinue s0 = true) by reflexivity.
  assert (H2 : batchedEvents s0 <> []) by (vm_compute; discriminate).
  assert (H3 : innerSink s0 = Some promisingSink) by reflexivity.
  assert (H4 : instanceofPromise (sinkEmit promisingSink (batchedEvents s0))
               = true) by reflexivity.
  repeat (split; [assumption|]).
  destruct (rejected_dispatch_is_requeued digitsOf ticking s0 promisingSink
              H1 H2 H3 H4) as (_ & _ & H).
  destruct (H s 0%nat eq_refl) as (s' & Hs & Hb & Hd).
  exists s'. split; [exact Hs|]. split; [exact Hb|exact Hd].
Defined.

(** Witness of C3: the constructor on the example store, with capacity
    2. *)
Lemma constructor_recovers_store_witness :
  spread defaultBatchedSinkOptions (Some (manualOptions 2 (Some exampleStore)))
  = {| opt_maxSize := Some 2; opt_period := Some (Num (0 # 1));
       opt_durableStore := Some exampleStore |} /\
  0 < 2 /\
  NoDup (storageKeys exampleStore) /\
  Forall2 (fun kv evs => ofDigits (snd kv) = Some evs)
    (ownEntries exampleStore) [[1]; [2; 3]]%nat /\
  rehydrate ofDigits (storageKeys exampleStore) exampleStore []
  = Some ([("theme", "dark")]%string, [1; 2; 3]%nat) /\
  exists s,
    new digitsOf ofDigits ticking (Some promisingSink)
      (Some (manualOptions 2 (Some exampleStore))) = Some s /\
    concat (received s) ++ batchedEvents s = [1; 2; 3]%nat.
Proof.
  assert (H1 : spread defaultBatchedSinkOptions
                 (Some (manualOptions 2 (Some exampleStore)))
               = {| opt_maxSize := Some 2; opt_period := Some (Num (0 # 1));
                    opt_durableStore := Some exampleStore |}) by reflexivity.
  assert (H2 : 0 < 2) by reflexivity.
  assert (H3 : NoDup (storageKeys exampleStore)).
  { repeat constructor; simpl; intuition discriminate. }
  assert (H4 : Forall2 (fun kv evs => ofDigits (snd kv) = Some evs)
                 (ownEntries exampleStore) [[1]; [2; 3]]%nat).
  { repeat constructor. }
  repeat (split; [assumption|]).
  destruct (constructor_recovers_store digitsOf ofDigits ticking
              (Some promisingSink) _ 2 (Num (0 # 1)) exampleStore
              [[1]; [2; 3]]%nat H1 H2 H3 H4)
    as (Hre & _ & _ & s & Hnew & _ & _ & Hcat).
  split; [exact Hre|].
  exists s. split; [exact Hnew|]. apply Hcat. discriminate.
Defined.

(** Witness of C4 (amended): the example sink, halted with [1] in its
    buffer. *)
Lemma flush_after_stop_is_inert_witness :
  let s := stopCycle (push [1%nat] exampleSink) in
  shouldCycleContinue s = false /\
  received (fst (flush ticking s)) = received s /\
  batchedEvents (fst (flush ticking s)) = batchedEvents s.
Proof.
  intros s.
  assert (H : shouldCycleContinue s = false) by reflexivity.
  split; [exact H|].
  destruct (flush_after_stop_is_inert ticking s H)
    as (_ & _ & _ & _ & Hr & _ & Hb & _).
  split; [exact Hr|exact Hb].
Defined.

(** Counterexample to C4 as stated: the example sink takes [1], is
    halted, and is flushed; the inner sink is handed nothing and [1] is
    still in the buffer. *)
Lemma flush_after_stop_drains_nothing :
  exists s,
    run digitsOf ticking [Emit [1%nat]; StopCycle] exampleSink = Some s /\
    batchedEvents s = [1%nat] /\
    received s = [] /\
    received (fst (flush ticking s)) = [] /\
    batchedEvents (fst (flush ticking s)) = [1%nat] /\
    inFlight (fst (flush ticking s)) = [].
Proof.
  eexists. split; [vm_compute; reflexivity|].
  repeat split; reflexivity.
Qed.

(** Witness of C5 (amended): a sink built on an empty store, after one
    [emit] and one [flush()]. *)
Lemma durable_entries_lifecycle_witness :
  exists s0 s,
    (forall st,
       opt_durableStore
         (spread defaultBatchedSinkOptions
            (Some (manualOptions 3 (Some [])))) = Some st ->
       NoDup (storageKeys st)) /\
    new digitsOf ofDigits ticking (Some promisingSink)
      (Some (manualOptions 3 (Some []))) = Some s0 /\
    run digitsOf ticking [Emit [1%nat]; Flush] s0 = Some s /\
    (forall st, durableStore s = Some st -> NoDup (storageKeys st)) /\
    (forall a s' st st' key,
       step digitsOf ticking a s = Some s' ->
       durableStore s = Some st -> durableStore s' = Some st' ->
       getItem st key <> None -> getItem st' key = None ->
       exists i d,
         a = Settle i Fulfilled /\ nth_error (inFlight s) i = Some d /\
         previousBatchKey d = key).
Proof.
  eexists. eexists.
  assert (Hnd : forall st,
             opt_durableStore
               (spread defaultBatchedSinkOptions
                  (Some (manualOptions 3 (Some [])))) = Some st ->
             NoDup (storageKeys st)).
  { intros st H. inversion H; subst. constructor. }
  split; [exact Hnd|].
  match goal with
  | |- ?A /\ ?B /\ _ =>
      assert (Hnew : A) by (vm_compute; reflexivity);
      assert (Hrun : B) by (vm_compute; reflexivity)
  end.
  split; [exact Hnew|]. split; [exact Hrun|].
  destruct (durable_entries_lifecycle digitsOf ofDigits ticking
              (Some promisingSink) (Some (manualOptions 3 (Some [])))
              [Emit [1%nat]; Flush] _ _ Hnd Hnew Hrun) as (Hok & _ & Hrm).
  split; [exact Hok|exact Hrm].
Defined.

(** Counterexample to C5 as stated: a sink built on an empty store takes
    [1], is flushed, and the dispatch is rejected.  No dispatch is in
    flight any more, yet the store still holds, under the key of that
    dispatch, an entry whose key is not the key of the buffer. *)
Lemma rejected_entry_outlives_dispatch :
  exists s0 s,
    new digitsOf ofDigits ticking (Some promisingSink)
      (Some (manualOptions 3 (Some []))) = Some s0 /\
    run digitsOf ticking [Emit [1%nat]; Flush; Settle 0 Rejected] s0
    = Some s /\
    inFlight s = [] /\
    batchKey s = "serilogger-batched-sink-durable-cache-1"%string /\
    durableStore s
    = Some [("serilogger-batched-sink-durable-cache-0", "1")]%string /\
    batchedEvents s = [1%nat].
Proof.
  eexists. eexists.
  split; [vm_compute; reflexivity|].
  split; [vm_compute; reflexivity|].
  repeat split; reflexivity.
Qed.



(** Witness of C7: the promise [flush()] returns on the example sink is
    the promise of its inner sink. *)
Lemma flush_completion_witness :
  innerSink exampleSink = Some promisingSink /\
  sinkFlush promisingSink = APromise (SinkPromise 0) /\
  cycles (fst (flush ticking exampleSink)) = S (cycles exampleSink) /\
  snd (flush ticking exampleSink) = SinkPromise 0.
Proof.
  split; [reflexivity|]. split; [reflexivity|].
  destruct (flush_completion ticking exampleSink) as (_ & Hc & Hp & _).
  split; [exact Hc|].
  exact (proj1 (Hp promisingSink (SinkPromise 0) eq_refl eq_refl)).
Defined.

(** Witness of C8: a sink with the default options (a timeout every five
    seconds) takes [1], its timeout fires, and it is halted. *)
Lemma stop_is_final_witness :
  exists s0 s,
    new digitsOf ofDigits ticking (Some promisingSink) None = Some s0 /\
    run digitsOf ticking [Emit [1%nat]; TimerFires 1] s0 = Some s /\
    timers s = [2%nat] /\
    stopCycle (stopCycle s) = stopCycle s /\
    timers (stopCycle s) = [] /\
    forall (after : list (Action nat)) s',
      run digitsOf ticking after (stopCycle s) = Some s' ->
      (forall id, ~ In (TimerFires id) after) /\
      shouldCycleContinue s' = false /\
      timers s' = [] /\
      forall id, step digitsOf ticking (TimerFires id) s' = None.
Proof.
  eexists. eexists.
  match goal with
  | |- ?A /\ ?B /\ _ =>
      assert (Hnew : A) by (vm_compute; reflexivity);
      assert (Hrun : B) by (vm_compute; reflexivity)
  end.
  split; [exact Hnew|]. split; [exact Hrun|]. split; [reflexivity|].
  exact (stop_is_final digitsOf ofDigits ticking (Some promisingSink) None
           [Emit [1%nat]; TimerFires 1] _ _ Hnew Hrun).
Defined.

(** Witness of C9 (amended): the scenario on the example sink. *)
Lemma emit_five_into_three_witness :
  maxSize exampleSink = 3 /\
  negb (isNaN (period exampleSink)) && gt0 (period exampleSink) = false /\
  batchedEvents exampleSink = [] /\
  shouldCycleContinue exampleSink = true /\
  innerSink exampleSink = Some promisingSink /\
  exists s',
    emit digitsOf ticking [1; 2; 3; 4; 5]%nat exampleSink
    = Some (s', [1; 2; 3; 4; 5]%nat) /\
    cycles s' = S (cycles exampleSink) /\
    received s' = [[1; 2; 3]%nat] /\
    batchedEvents s' = [4; 5]%nat /\
    received (fst (flush ticking s')) = [[1; 2; 3]; [4; 5]]%nat.
Proof.
  assert (H1 : maxSize exampleSink = 3) by reflexivity.
  assert (H2 : negb (isNaN (period exampleSink)) && gt0 (period exampleSink)
               = false) by reflexivity.
  assert (H3 : batchedEvents exampleSink = []) by reflexivity.
  assert (H4 : shouldCycleContinue exampleSink = true) by reflexivity.
  assert (H5 : innerSink exampleSink = Some promisingSink) by reflexivity.
  repeat (split; [assumption|]).
  destruct (emit_five_into_three digitsOf ticking 1%nat 2%nat 3%nat 4%nat
              5%nat exampleSink promisingSink H1 H2 H3 H4 H5)
    as (s' & He & Hc & _ & Hr & Hb & Hf & _).
  exists s'. repeat split; assumption.
Defined.

(** Counterexample to C9 as stated: on the example sink (capacity 3, no
    timeout, empty buffer) [emit([1,2,3,4,5])] makes one call of
    [cycleBatch], not two. *)
Lemma emit_five_into_three_one_cycle :
  exists s',
    maxSize exampleSink = 3 /\
    timers exampleSink = [] /\
    batchedEvents exampleSink = [] /\
    emit digitsOf ticking [1; 2; 3; 4; 5]%nat exampleSink
    = Some (s', [1; 2; 3; 4; 5]%nat) /\
    (cycles s' - cycles exampleSink = 1)%nat /\
    (cycles s' - cycles exampleSink <> 2)%nat /\
    received s' = [[1; 2; 3]%nat] /\
    batchedEvents s' = [4; 5]%nat.
Proof.
  eexists.
  split; [reflexivity|]. split; [reflexivity|]. split; [reflexivity|].
  split; [vm_compute; reflexivity|].
  split; [reflexivity|]. split; [vm_compute; discriminate|].
  split; reflexivity.
Qed.

(** Witness of C10: four events into the halted example sink. *)
Lemma emit_after_stop_accumulates_witness :
  let s := stopCycle exampleSink in
  shouldCycleContinue s = false /\
  0 < maxSize s /\
  maxSize s < Z.of_nat 4 /\
  exists s',
    emit digitsOf ticking [1; 2; 3; 4]%nat s = Some (s', [1; 2; 3; 4]%nat) /\
    received s' = received s /\
    batchedEvents s' = [1; 2; 3; 4]%nat /\
    maxSize s' < Z.of_nat (length (batchedEvents s')).
Proof.
  intros s.
  assert (H1 : shouldCycleContinue s = false) by reflexivity.
  assert (H2 : 0 < maxSize s) by reflexivity.
  assert (H3 : maxSize s < Z.of_nat (length [1; 2; 3; 4]%nat)) by reflexivity.
  repeat (split; [assumption|]).
  destruct (emit_after_stop_accumulates digitsOf ticking [1; 2; 3; 4]%nat s
              H1 H2 H3) as (_ & s' & He & _ & _ & Hr & _ & _ & Hb & Hl).
  exists s'. repeat split; assumption.
Defined.

(** Witness of X2: [1] and then [2, 3] into the example sink, then a
    flush. *)
Lemma emits_within_capacity_witness :
  Z.of_nat (length (batchedEvents exampleSink))
  + Z.of_nat (length (concat [[1]; [2; 3]]%nat)) <= maxSize exampleSink /\
  shouldCycleContinue exampleSink = true /\
  innerSink exampleSink = Some promisingSink /\
  batchedEvents exampleSink ++ concat [[1]; [2; 3]]%nat <> [] /\
  exists s',
    run digitsOf ticking [Emit [1%nat]; Emit [2; 3]%nat] exampleSink
    = Some s' /\
    batchedEvents s' = [1; 2; 3]%nat /\
    received s' = [] /\
    received (fst (flush ticking s')) = [[1; 2; 3]%nat].
Proof.
  assert (H1 : Z.of_nat (length (batchedEvents exampleSink))
               + Z.of_nat (length (concat [[1]; [2; 3]]%nat))
               <= maxSize exampleSink) by evaluate.
  assert (H2 : shouldCycleContinue exampleSink = true) by reflexivity.
  assert (H3 : innerSink exampleSink = Some promisingSink) by reflexivity.
  assert (H4 : batchedEvents exampleSink ++ concat [[1]; [2; 3]]%nat <> [])
    by evaluate.
  repeat (split; [assumption|]).
  destruct (emits_within_capacity digitsOf ticking [[1]; [2; 3]]%nat
              exampleSink promisingSink H1 H2 H3 H4)
    as (s' & Hr & Hb & Hrec & _ & Hf & _).
  exists s'. repeat split; assumption.
Defined.

(** Witness of X3: a history of the example sink with two [emit] calls,
    a flush and a fulfilment. *)
Lemma run_conserves_events_witness :
  exists s',
    innerSink exampleSink <> None /\
    (forall i, ~ In (Settle i Rejected)
                 [Emit [1; 2; 3; 4]%nat; Settle 0 Fulfilled; Emit [5%nat];
                  Flush]) /\
    run digitsOf ticking
      [Emit [1; 2; 3; 4]%nat; Settle 0 Fulfilled; Emit [5%nat]; Flush]
      exampleSink = Some s' /\
    concat (received s') ++ batchedEvents s' = [1; 2; 3; 4; 5]%nat.
Proof.
  eexists.
  assert (H1 : innerSink exampleSink <> None) by evaluate.
  assert (H2 : forall i, ~ In (Settle i Rejected)
                 [Emit [1; 2; 3; 4]%nat; Settle 0 Fulfilled; Emit [5%nat];
                  Flush]).
  { intros i H. simpl in H. intuition discriminate. }
  split; [exact H1|]. split; [exact H2|].
  match goal with
  | |- ?A /\ _ => assert (Hrun : A) by (vm_compute; reflexivity)
  end.
  split; [exact Hrun|].
  exact (run_conserves_events digitsOf ticking _ _ _ H1 H2 Hrun).
Defined.

(** Witness of X4: a history of the example sink in which it is flushed
    while empty. *)
Lemma no_empty_batch_witness :
  exists s,
    new digitsOf ofDigits ticking (Some promisingSink)
      (Some (manualOptions 3 None)) = Some exampleSink /\
    run digitsOf ticking [Flush; Emit [1%nat]; Flush; Flush] exampleSink
    = Some s /\
    received s = [[1%nat]] /\
    Forall (fun b => b <> []) (received s).
Proof.
  eexists.
  assert (Hnew : new digitsOf ofDigits ticking (Some promisingSink)
                   (Some (manualOptions 3 None)) = Some exampleSink)
    by reflexivity.
  split; [exact Hnew|].
  match goal with
  | |- ?A /\ _ => assert (Hrun : A) by (vm_compute; reflexivity)
  end.
  split; [exact Hrun|]. split; [reflexivity|].
  exact (no_empty_batch digitsOf ofDigits ticking _ _ _ _ _ Hnew Hrun).
Defined.

(** Witness of X5: seven events into the example sink, then a flush. *)
Lemma batches_within_maxSize_witness :
  exists s,
    new digitsOf ofDigits ticking (Some promisingSink)
      (Some (manualOptions 3 None)) = Some exampleSink /\
    0 < maxSize exampleSink /\
    (forall i, ~ In (Settle i Rejected)
                 [Emit [1; 2; 3; 4; 5; 6; 7]%nat; Flush]) /\
    run digitsOf ticking [Emit [1; 2; 3; 4; 5; 6; 7]%nat; Flush] exampleSink
    = Some s /\
    received s = [[1; 2; 3]; [4; 5; 6]; [7]]%nat /\
    Forall (fun b => Z.of_nat (length b) <= maxSize exampleSink) (received s).
Proof.
  eexists.
  assert (Hnew : new digitsOf ofDigits ticking (Some promisingSink)
                   (Some (manualOptions 3 None)) = Some exampleSink)
    by reflexivity.
  assert (Hm : 0 < maxSize exampleSink) by reflexivity.
  assert (Hno : forall i, ~ In (Settle i Rejected)
                  [Emit [1; 2; 3; 4; 5; 6; 7]%nat; Flush]).
  { intros i H. simpl in H. intuition discriminate. }
  split; [exact Hnew|]. split; [exact Hm|]. split; [exact Hno|].
  match goal with
  | |- ?A /\ _ => assert (Hrun : A) by (vm_compute; reflexivity)
  end.
  split; [exact Hrun|]. split; [reflexivity|].
  exact (proj2 (batches_within_maxSize digitsOf ofDigits ticking _ _ _ _ _
                  Hnew Hm Hno Hrun)).
Defined.

(** Witness of X6: a sink with the default options after an [emit] and
    the firing of its timeout. *)
Lemma one_timeout_while_running_witness :
  exists s0 s,
    new digitsOf ofDigits ticking (Some promisingSink) None = Some s0 /\
    run digitsOf ticking [Emit [1%nat]; TimerFires 1] s0 = Some s /\
    shouldCycleContinue s = true /\
    negb (isNaN (period s)) && gt0 (period s) = true /\
    exists id, batchTimeout s = Some id /\ timers s = [id].
Proof.
  eexists. eexists.
  match goal with
  | |- ?A /\ ?B /\ _ =>
      assert (Hnew : A) by (vm_compute; reflexivity);
      assert (Hrun : B) by (vm_compute; reflexivity)
  end.
  split; [exact Hnew|]. split; [exact Hrun|].
  split; [reflexivity|]. split; [reflexivity|].
  exact (proj1 (one_timeout_while_running digitsOf ofDigits ticking _ _ _ _ _
                  Hnew Hrun) eq_refl eq_refl).
Defined.

(** Witness of X7: a sink on the example store, after an overflowing
    [emit], a flush and a fulfilment. *)
Lemma foreign_entries_untouched_witness :
  exists s0 s,
    opt_durableStore
      (spread defaultBatchedSinkOptions
         (Some (manualOptions 2 (Some exampleStore)))) = Some exampleStore /\
    new digitsOf ofDigits ticking (Some promisingSink)
      (Some (manualOptions 2 (Some exampleStore))) = Some s0 /\
    run digitsOf ticking [Emit [4; 5]%nat; Flush; Settle 0 Fulfilled] s0
    = Some s /\
    exists st,
      durableStore s = Some st /\
      getItem st "theme" = getItem exampleStore "theme".
Proof.
  eexists. eexists.
  assert (Hst : opt_durableStore
                  (spread defaultBatchedSinkOptions
                     (Some (manualOptions 2 (Some exampleStore))))
                = Some exampleStore) by reflexivity.
  split; [exact Hst|].
  match goal with
  | |- ?A /\ ?B /\ _ =>
      assert (Hnew : A) by (vm_compute; reflexivity);
      assert (Hrun : B) by (vm_compute; reflexivity)
  end.
  split; [exact Hnew|]. split; [exact Hrun|].
  destruct (foreign_entries_untouched digitsOf ofDigits ticking _ _ _ _ _ _
              Hst Hnew Hrun) as (st & Hd & Hf).
  exists st. split; [exact Hd|]. apply Hf. reflexivity.
Defined.

(** Witness of X8: under a clock that does not advance, a sink on an
    empty store takes [1], cycles, takes [2], and sees its dispatch
    fulfilled: [2] is in the buffer and the store holds nothing under the
    key of the buffer. *)
Lemma mirror_survives_iff_clock_advanced_witness :
  exists s0 s st,
    new digitsOf ofDigits frozen (Some promisingSink)
      (Some (manualOptions 3 (Some []))) = Some s0 /\
    run digitsOf frozen [Emit [1%nat]] s0 = Some s /\
    durableStore s = Some st /\
    shouldCycleContinue s = true /\
    batchedEvents s <> [] /\
    batchKey s = keyAt 0 /\
    Z.of_nat (length [2%nat]) <= maxSize s /\
    exists s1 s2 st2,
      run digitsOf frozen [Flush; Emit [2%nat]] s = Some s1 /\
      step digitsOf frozen (Settle (length (inFlight s)) Fulfilled) s1
      = Some s2 /\
      batchedEvents s2 = [2%nat] /\
      durableStore s2 = Some st2 /\
      getItem st2 (batchKey s2) = None.
Proof.
  eexists. eexists. eexists.
  match goal with
  | |- ?A /\ ?B /\ ?C /\ _ =>
      assert (Hnew : A) by (vm_compute; reflexivity);
      assert (Hrun : B) by (vm_compute; reflexivity);
      assert (Hst : C) by (vm_compute; reflexivity)
  end.
  split; [exact Hnew|]. split; [exact Hrun|]. split; [exact Hst|].
  match goal with
  | |- ?A /\ ?B /\ ?C /\ ?D /\ _ =>
      assert (H1 : A) by reflexivity;
      assert (H2 : B) by (vm_compute; discriminate);
      assert (H3 : C) by reflexivity;
      assert (H4 : D) by evaluate
  end.
  repeat (split; [assumption|]).
  destruct (mirror_survives_iff_clock_advanced digitsOf frozen _ _ 0
              [2%nat] H1 H2 Hst H3 H4)
    as (s1 & s2 & st2 & Hr & Hs & Hb & _ & Hd & _ & _ & Hnone).
  exists s1, s2, st2. repeat (split; [assumption|]).
  apply Hnone. reflexivity.
Defined.

(** Witness of X9: the example sink takes five events, so that
    [1, 2, 3] are in flight and [4, 5] in the buffer; the dispatch is
    rejected and the sink is flushed: the batch holds five events, two more
    than [maxSize]. *)
Lemma rejected_events_lead_next_batch_witness :
  exists s d,
    run digitsOf ticking [Emit [1; 2; 3; 4; 5]%nat] exampleSink = Some s /\
    nth_error (inFlight s) 0 = Some d /\
    emitPromiseIsPromise d = true /\
    processEvents d <> [] /\
    shouldCycleContinue s = true /\
    innerSink s = Some promisingSink /\
    maxSize s = 3 /\
    exists s',
      run digitsOf ticking [Settle 0 Rejected; Flush] s = Some s' /\
      received s' = [[1; 2; 3]; [1; 2; 3; 4; 5]]%nat.
Proof.
  eexists. eexists.
  match goal with
  | |- ?A /\ ?B /\ _ =>
      assert (Hrun : A) by (vm_compute; reflexivity);
      assert (Hn : B) by (vm_compute; reflexivity)
  end.
  split; [exact Hrun|]. split; [exact Hn|].
  match goal with
  | |- ?A /\ ?B /\ ?C /\ ?D /\ _ =>
      assert (H1 : A) by reflexivity;
      assert (H2 : B) by (vm_compute; discriminate);
      assert (H3 : C) by reflexivity;
      assert (H4 : D) by reflexivity
  end.
  repeat (split; [assumption|]). split; [reflexivity|].
  destruct (rejected_events_lead_next_batch digitsOf ticking _ 0%nat _
              promisingSink Hn H1 H2 H3 H4) as (s' & Hr & Hrec & _).
  exists s'. split; [exact Hr|exact Hrec].
Defined.

(** Witness of X10: a sink constructed with [maxSize] 0 is given one
    event. *)
Lemma emit_hangs_without_capacity_witness :
  let s := cycleBatch ticking (fresh (Some promisingSink) 0 (Num (0 # 1)) None)
  in
  new digitsOf ofDigits ticking (Some promisingSink)
    (Some (manualOptions 0 None)) = Some s /\
  maxSize s <= 0 /\
  [1%nat] <> [] /\
  (forall fuel, emitFuel digitsOf ticking fuel [1%nat] s = None) /\
  run digitsOf ticking [Emit [1%nat]; Flush] s = None.
Proof.
  intros s.
  assert (H1 : maxSize s <= 0) by evaluate.
  assert (H2 : [1%nat] <> []) by discriminate.
  split; [reflexivity|]. split; [exact H1|]. split; [exact H2|].
  destruct (emit_hangs_without_capacity digitsOf ticking [1%nat] s H1 H2)
    as (Hf & Hr).
  split; [exact Hf|apply Hr].
Defined.

(** Witness of X11: a sink of capacity 3 on a store with one entry of
    someone else takes [1, 2]; a sink of capacity 1 constructed on the
    store it leaves recovers them, handing [1] to its inner sink and
    keeping [2]. *)
Lemma restart_recovers_buffer_witness :
  0 < 3 /\ 0 < 1 /\
  NoDup (storageKeys [("theme", "dark")]%string) /\
  ownEntries [("theme", "dark")]%string = [] /\
  Z.of_nat (length [1; 2]%nat) <= 3 /\
  ofDigits (digitsOf [1; 2]%nat) = Some [1; 2]%nat /\
  exists s0 s1 st1 s2,
    new digitsOf ofDigits ticking (Some promisingSink)
      (Some {| opt_maxSize := Some 3; opt_period := Some (Num (0 # 1));
               opt_durableStore := Some [("theme", "dark")]%string |})
    = Some s0 /\
    emit digitsOf ticking [1; 2]%nat s0 = Some (s1, [1; 2]%nat) /\
    durableStore s1 = Some st1 /\
    new digitsOf ofDigits frozen (Some promisingSink)
      (Some {| opt_maxSize := Some 1; opt_period := Some NaN;
               opt_durableStore := Some st1 |})
    = Some s2 /\
    concat (received s2) ++ batchedEvents s2 = [1; 2]%nat.
Proof.
  assert (H1 : 0 < 3) by reflexivity.
  assert (H2 : 0 < 1) by reflexivity.
  assert (H3 : NoDup (storageKeys [("theme", "dark")]%string)).
  { repeat constructor. intros []. }
  assert (H4 : ownEntries [("theme", "dark")]%string = []) by reflexivity.
  assert (H5 : Z.of_nat (length [1; 2]%nat) <= 3) by evaluate.
  assert (H6 : ofDigits (digitsOf [1; 2]%nat) = Some [1; 2]%nat)
    by reflexivity.
  repeat (split; [assumption|]).
  destruct (restart_recovers_buffer digitsOf ofDigits ticking frozen
              (Some promisingSink) (Some promisingSink) 3 1
              (Num (0 # 1)) NaN _ [1; 2]%nat H1 H2 H3 H4 H5 H6)
    as (s0 & s1 & st1 & s2 & Hn1 & He & _ & _ & Hd & Hn2 & Hc).
  exists s0, s1, st1, s2. repeat (split; [assumption|]).
  apply Hc. discriminate.
Defined.

(** Witness of X13: the example sink is halted with [1] in its buffer;
    it is then given [2, 3, 4], flushed, and given [5]. *)
Lemma halted_sink_never_dispatches_witness :
  exists s s',
    run digitsOf ticking [Emit [1%nat]; StopCycle] exampleSink = Some s /\
    shouldCycleContinue s = false /\
    run digitsOf ticking [Emit [2; 3; 4]%nat; Flush; Emit [5%nat]] s
    = Some s' /\
    received s' = [] /\
    batchedEvents s' = [1; 2; 3; 4; 5]%nat.
Proof.
  eexists. eexists.
  match goal with
  | |- ?A /\ _ => assert (H0 : A) by (vm_compute; reflexivity)
  end.
  split; [exact H0|].
  match goal with
  | |- ?A /\ ?B /\ _ =>
      assert (Hh : A) by reflexivity;
      assert (Hrun : B) by (vm_compute; reflexivity)
  end.
  split; [exact Hh|]. split; [exact Hrun|].
  destruct (halted_sink_never_dispatches digitsOf ticking _ _ _ Hh Hrun)
    as (_ & Hr & Hb).
  split; [exact Hr|]. apply Hb.
  intros i H. simpl in H. intuition discriminate.
Defined.

(** Witness of X14: the example sink takes five events and its dispatch
    of [1, 2, 3] is rejected, so that its buffer holds five events; it is
    then given [6]. *)
Lemma emit_on_overfull_buffer_witness :
  exists s,
    run digitsOf ticking [Emit [1; 2; 3; 4; 5]%nat; Settle 0 Rejected]
      exampleSink = Some s /\
    0 < maxSize s /\
    maxSize s < Z.of_nat (length (batchedEvents s)) /\
    [6%nat] <> [] /\
    shouldCycleContinue s = true /\
    innerSink s = Some promisingSink /\
    exists s' batches,
      emit digitsOf ticking [6%nat] s = Some (s', [6%nat]) /\
      received s' = received s ++ [1; 2; 3; 4; 5]%nat :: batches /\
      concat batches ++ batchedEvents s' = [6%nat].
Proof.
  eexists.
  match goal with
  | |- ?A /\ _ => assert (H0 : A) by (vm_compute; reflexivity)
  end.
  split; [exact H0|].
  match goal with
  | |- ?A /\ ?B /\ ?C /\ ?D /\ ?E /\ _ =>
      assert (H1 : A) by reflexivity;
      assert (H2 : B) by reflexivity;
      assert (H3 : C) by discriminate;
      assert (H4 : D) by reflexivity;
      assert (H5 : E) by reflexivity
  end.
  repeat (split; [assumption|]).
  destruct (emit_on_overfull_buffer digitsOf ticking [6%nat] _ promisingSink
              H1 H2 H3 H4 H5) as (s' & batches & He & Hr & _ & Hc).
  exists s', batches. split; [exact He|]. split; [exact Hr|exact Hc].
Defined.
